(** * lichess-bot: the dispatcher, the control-stream consumer and the game worker

    A shallow embedding of [src/__init__.py].  Python objects that live in
    modules outside that file (the transport client [li], [model.Challenge],
    [model.Game], the engine handle, python-chess) are interfaces here: the
    embedding is parametric in them, and every theorem holds for all of
    their implementations. *)

From stdpp Require Import base list strings gmap sorting.
From Stdlib Require Import ZArith Lia.

#[local] Open Scope Z_scope.

(** ** Exceptions *)

(** The exception classes the source names, and the built-in ones its
    statements can raise. *)
Inductive Exn : Type :=
| HTTPError (status_code : Z)
| RemoteDisconnected
| ChunkedEncodingError
| ConnectionError
| ProtocolError
| ValueError
| IndexError
| TypeError
| StopIteration.

#[global] Instance Exn_eq_dec : EqDecision Exn.
Proof. solve_decision. Defined.

(** [is_final]: an [HTTPError] whose status code is below 500. *)
Definition is_final (exception : Exn) : bool :=
  match exception with
  | HTTPError status_code => bool_decide (status_code < 500)
  | _ => false
  end.

(** The tuple of the [except (RemoteDisconnected, ChunkedEncodingError,
    ConnectionError, ProtocolError)] clauses. *)
Definition is_connection_error (exception : Exn) : bool :=
  match exception with
  | RemoteDisconnected | ChunkedEncodingError | ConnectionError | ProtocolError => true
  | _ => false
  end.

(** What a call that can raise gives back. *)
Inductive Result (A : Type) : Type :=
| Ok (a : A)
| Raise (e : Exn).
Arguments Ok {A} a.
Arguments Raise {A} e.

(** ** Configuration *)

(** [config["challenge"]].  The keys that [start] reads with [.get] and a
    default are optional. *)
Record ChallengeConfig : Type := {
  concurrency : option Z;
  sort_by : option string;
  accept_bot : bool;
  max_increment : Z;
  min_increment : Z;
  variants : list string;
  time_controls : list string;
  modes : list string;
}.

(** The [CONFIG] dict; [abort_time] is read with [config.get("abort_time", 20)]. *)
Record Config : Type := {
  url : string;
  abort_time : option Z;
  challenge : ChallengeConfig;
}.

(** ** Interfaces of the collaborators *)

(** [model.Challenge]: what the dispatcher uses of it. *)
Class ChallengeModel (Challenge : Type) : Type := {
  challenge_id : Challenge → string;
  is_supported : Challenge → ChallengeConfig → bool;
  score : Challenge → Z;
}.

(** The transport client [li], as far as the dispatcher calls it.  [World]
    is the state of everything outside the process; a call returns the new
    world and either normally or with an exception. *)
Class DispatcherTransport (World : Type) : Type := {
  accept_challenge : World → string → World * Result unit;
  decline_challenge : World → string → World * Result unit;
}.

(** ** Events of the control queue *)

Inductive Event (Challenge : Type) : Type :=
| EvTerminated
| EvLocalGameDone
| EvChallenge (chlng : Challenge)
| EvGameStart (game_id : string)
| EvPing
| EvOther.
Arguments EvTerminated {Challenge}.
Arguments EvLocalGameDone {Challenge}.
Arguments EvChallenge {Challenge} chlng.
Arguments EvGameStart {Challenge} game_id.
Arguments EvPing {Challenge}.
Arguments EvOther {Challenge}.

(** ** Stable sort by key: [list.sort(key=...)] *)

Section StableSort.
Context {A : Type} (key : A → Z).

Fixpoint insert_by_key (x : A) (l : list A) : list A :=
  match l with
  | [] => [x]
  | y :: l' =>
      if bool_decide (key x ≤ key y) then x :: y :: l'
      else y :: insert_by_key x l'
  end.

(** Python's [list.sort] is stable; a stable sort has one possible result
    ([sorted_stable_unique] below), computed here by insertion. *)
Fixpoint sort_by_key (l : list A) : list A :=
  match l with
  | [] => []
  | x :: l' => insert_by_key x (sort_by_key l')
  end.
(** The order [list.sort(key=key)] sorts by. *)
Definition key_le (a b : A) : Prop := key a ≤ key b.

End StableSort.

(** ** The dispatcher: [start] *)

Section Dispatcher.
Context {Challenge World : Type}.
Context `{!ChallengeModel Challenge, !DispatcherTransport World}.

(** The local variables of [start] that the loop updates; [pool] lists the
    game ids handed to [pool.apply_async(play_game, ...)], oldest first. *)
Record Dispatcher : Type := {
  busy_processes : Z;
  queued_processes : Z;
  challenge_queue : list Challenge;
  pool : list string;
  li : World;
}.

Definition set_li (w : World) (st : Dispatcher) : Dispatcher :=
  {| busy_processes := busy_processes st;
     queued_processes := queued_processes st;
     challenge_queue := challenge_queue st;
     pool := pool st;
     li := w |}.

(** How far one iteration, or the loop, got. *)
Inductive Outcome : Type :=
| Running (st : Dispatcher)
| Finished (st : Dispatcher)
| Raised (e : Exn) (st : Dispatcher).

(** [max_games = challenge_config.get("concurrency", 1)] *)
Definition max_games (challenge_config : ChallengeConfig) : Z :=
  default 1 (concurrency challenge_config).

(** [challenge_config.get("sort_by", "best") == "best"] *)
Definition sort_best (challenge_config : ChallengeConfig) : bool :=
  bool_decide (default "best"%string (sort_by challenge_config) = "best"%string).

(** The state before the first iteration. *)
Definition init (w : World) : Dispatcher :=
  {| busy_processes := 0; queued_processes := 0;
     challenge_queue := []; pool := []; li := w |}.

(** The [if]/[elif] chain on [event["type"]], the [terminated] branch
    apart (it leaves the loop, see [start_loop]). *)
Definition handle_event (challenge_config : ChallengeConfig)
    (event : Event Challenge) (st : Dispatcher) : Outcome :=
  match event with
  | EvLocalGameDone =>
      Running {| busy_processes := busy_processes st - 1;
                 queued_processes := queued_processes st;
                 challenge_queue := challenge_queue st;
                 pool := pool st; li := li st |}
  | EvChallenge chlng =>
      if is_supported chlng challenge_config then
        let appended := challenge_queue st ++ [chlng] in
        Running {| busy_processes := busy_processes st;
                   queued_processes := queued_processes st;
                   challenge_queue :=
                     if sort_best challenge_config
                     then sort_by_key (λ c, - score c) appended
                     else appended;
                   pool := pool st; li := li st |}
      else
        match decline_challenge (li st) (challenge_id chlng) with
        | (w, Ok _) => Running (set_li w st)
        | (w, Raise (HTTPError status_code)) =>
            if bool_decide (status_code ≠ 404)
            then Raised (HTTPError status_code) (set_li w st)
            else Running (set_li w st)
        | (w, Raise e) => Raised e (set_li w st)
        end
  | EvGameStart game_id =>
      Running {| busy_processes := busy_processes st + 1;
                 queued_processes :=
                   if bool_decide (queued_processes st ≤ 0)
                   then queued_processes st
                   else queued_processes st - 1;
                 challenge_queue := challenge_queue st;
                 pool := pool st ++ [game_id]; li := li st |}
  | EvTerminated | EvPing | EvOther => Running st
  end.

(** The admission pass: the [while] loop that follows the [if]/[elif]
    chain.  Each iteration pops the head of the queue, so the loop is a
    recursion on the queue. *)
Fixpoint drain_queue (capacity busy : Z) (the_pool : list string)
    (queue : list Challenge) (queued : Z) (w : World) : Outcome :=
  let here := {| busy_processes := busy; queued_processes := queued;
                 challenge_queue := queue; pool := the_pool; li := w |} in
  match queue with
  | [] => Running here
  | chlng :: rest =>
      if bool_decide (queued + busy < capacity) then
        match accept_challenge w (challenge_id chlng) with
        | (w', Ok _) => drain_queue capacity busy the_pool rest (queued + 1) w'
        | (w', Raise (HTTPError status_code)) =>
            if bool_decide (status_code = 404)
            then drain_queue capacity busy the_pool rest queued w'
            else Raised (HTTPError status_code)
                   {| busy_processes := busy; queued_processes := queued;
                      challenge_queue := rest; pool := the_pool; li := w' |}
        | (w', Raise e) =>
            Raised e {| busy_processes := busy; queued_processes := queued;
                        challenge_queue := rest; pool := the_pool; li := w' |}
        end
      else Running here
  end.

Definition drain (challenge_config : ChallengeConfig) (st : Dispatcher) : Outcome :=
  drain_queue (max_games challenge_config) (busy_processes st) (pool st)
    (challenge_queue st) (queued_processes st) (li st).

(** One iteration of the [while not terminated] loop for an event other
    than [terminated]: the handler, then the admission pass. *)
Definition dispatch (challenge_config : ChallengeConfig)
    (event : Event Challenge) (st : Dispatcher) : Outcome :=
  match handle_event challenge_config event st with
  | Running st' => drain challenge_config st'
  | other => other
  end.

(** The loop of [start] on the events that [control_queue.get()] returns,
    in order.  [Running] at the end of the list: the loop is waiting for
    the next event (or has seen the [terminated] flag set by SIGINT). *)
Fixpoint start_loop (challenge_config : ChallengeConfig)
    (events : list (Event Challenge)) (st : Dispatcher) : Outcome :=
  match events with
  | [] => Running st
  | EvTerminated :: _ => Finished st
  | event :: rest =>
      match dispatch challenge_config event st with
      | Running st' => start_loop challenge_config rest st'
      | other => other
      end
  end.

(** [start]: the loop from the initial counters and the empty queue. *)
Definition start (w : World) (config : Config)
    (events : list (Event Challenge)) : Outcome :=
  start_loop (challenge config) events (init w).

End Dispatcher.

(** ** The backoff wrapper *)

(** [@backoff.on_exception(backoff.expo, BaseException, max_time=600,
    giveup=is_final)]: call the target again after every exception, unless
    the exception is final or the time budget is used up.  The delays are
    real time; [retries] is the number of failed calls that the budget of
    600 seconds still lets the wrapper retry.  Whatever a failed call did to
    the shared state stays done. *)
Fixpoint backoff {S : Type} (retries : nat) (target : S → Result unit * S)
    (s : S) : Result unit * S :=
  match target s with
  | (Ok r, s') => (Ok r, s')
  | (Raise e, s') =>
      if is_final e then (Raise e, s')
      else match retries with
           | O => (Raise e, s')
           | Datatypes.S n => backoff n target s'
           end
  end.

(** ** Streams *)

(** How [response.iter_lines()] stops after its last line: the iterator is
    exhausted, or the connection raises. *)
Inductive StreamEnd : Type :=
| Exhausted
| Broken (e : Exn).

(** A line of the event stream: blank, a JSON document that [json.loads]
    turns into an event, or bytes on which [json.loads] raises. *)
Inductive ControlLine (Challenge : Type) : Type :=
| CBlank
| CJson (event : Event Challenge)
| CGarbled.
Arguments CBlank {Challenge}.
Arguments CJson {Challenge} event.
Arguments CGarbled {Challenge}.

Record ControlStream (Challenge : Type) : Type := {
  control_lines : list (ControlLine Challenge);
  control_end : StreamEnd;
}.
Arguments control_lines {Challenge} _.
Arguments control_end {Challenge} _.

(** [li.get_event_stream()] *)
Class ControlTransport (Challenge World : Type) : Type := {
  get_event_stream : World → World * Result (ControlStream Challenge);
}.

(** ** The control-stream consumer: [watch_control_stream] *)

Section ControlStreamConsumer.
Context {Challenge World : Type} `{!ControlTransport Challenge World}.

(** The shared state the consumer works on. *)
Record Feed : Type := {
  control_queue : list (Event Challenge);
  feed_world : World;
}.

(** The body of the [for line in response.iter_lines()] loop, for the lines
    the stream delivers. *)
Fixpoint forward_lines (lines : list (ControlLine Challenge))
    (queue : list (Event Challenge)) : Result unit * list (Event Challenge) :=
  match lines with
  | [] => (Ok (), queue)
  | CBlank :: rest => forward_lines rest (queue ++ [EvPing])
  | CJson event :: rest => forward_lines rest (queue ++ [event])
  | CGarbled :: _ => (Raise ValueError, queue)
  end.

(** The [try] statement: the loop, then the way the iterator stops. *)
Definition read_stream (response : ControlStream Challenge)
    (queue : list (Event Challenge)) : Result unit * list (Event Challenge) :=
  match forward_lines (control_lines response) queue with
  | (Ok _, queue') =>
      match control_end response with
      | Exhausted => (Ok (), queue')
      | Broken e => (Raise e, queue')
      end
  | raised => raised
  end.

(** One call of the undecorated function. *)
Definition watch_control_stream_once (s : Feed) : Result unit * Feed :=
  match get_event_stream (feed_world s) with
  | (w, Raise e) => (Raise e, {| control_queue := control_queue s; feed_world := w |})
  | (w, Ok response) =>
      match read_stream response (control_queue s) with
      | (Ok _, queue) => (Ok (), {| control_queue := queue; feed_world := w |})
      | (Raise e, queue) =>
          if is_connection_error e
          then (Ok (), {| control_queue := queue ++ [EvTerminated]; feed_world := w |})
          else (Raise e, {| control_queue := queue; feed_world := w |})
      end
  end.

(** The decorated function. *)
Definition watch_control_stream (retries : nat) (s : Feed) : Result unit * Feed :=
  backoff retries watch_control_stream_once s.

End ControlStreamConsumer.

(** ** Games and their streams *)

(** What the worker reads and writes of [model.Game]. *)
Module model.

(** A [gameState] document (also [gameFull]'s ["state"]): [moves] is
    [upd["moves"].split()], [numbers] holds the keys with a numeric value. *)
Record GameState : Type := {
  moves : list string;
  numbers : gmap string Z;
}.

(** Modelled from the spec: [abort_at] is the Game's "deadline for
    auto-abort", which [model.Game] keeps; the other fields are the
    attributes [src/__init__.py] reads. *)
Record Game : Type := {
  id : string;
  variant_name : string;
  initial_fen : string;
  white_starts : bool;
  is_white : bool;
  state : GameState;
  abort_at : Z;
}.

Definition set_state (upd : GameState) (game : Game) : Game :=
  {| id := id game; variant_name := variant_name game;
     initial_fen := initial_fen game; white_starts := white_starts game;
     is_white := is_white game; state := upd; abort_at := abort_at game |}.

End model.

Record ChatLine : Type := {
  room : string;
  username : string;
  text : string;
}.

(** A JSON document of the game stream, by its ["type"]. *)
Inductive Update : Type :=
| ChatLineUpd (line : ChatLine)
| GameStateUpd (upd : model.GameState)
| OtherUpd.

(** A line of the game stream after the first: blank, a JSON object, or
    bytes on which [json.loads] raises. *)
Inductive GameLine : Type :=
| GBlank
| GJson (upd : Update)
| GGarbled.

(** [snapshot] is what line 133 makes of the first line: the [model.Game],
    or the exception of [next], [json.loads] or [model.Game]. *)
Record GameStream : Type := {
  snapshot : Result model.Game;
  game_lines : list GameLine;
  game_end : StreamEnd;
}.

(** python-chess. *)
Class Rules (Board Move : Type) : Type := {
  chess_Board : string → bool → Result Board;
  find_variant : string → Result Board;
  from_uci : string → Result Move;
  push : Board → Move → Board;
  is_game_over : Board → bool;
}.

(** The engine handle that [engine_factory()] returns: [engine.move(board,
    clock)] gives the engine after the search and its move.  [engine.stop()]
    ends the life of the handle and has no result. *)
Class EngineHandle (Engine Board Move : Type) : Type := {
  engine_move : Engine → Board → gmap string Z → Engine * Move;
}.

(** The transport client [li], as far as the worker calls it. *)
Class WorkerTransport (World Move : Type) : Type := {
  get_game_stream : World → string → World * Result GameStream;
  make_move : World → string → Move → World * Result unit;
  abort : World → string → World * Result unit;
  get_ongoing_games : World → World * Result (list string);
}.

(** [engine_factory], [Conversation.react], and the two methods of
    [model.Game] that read the wall clock. *)
Class WorkerEnv (World Engine : Type) : Type := {
  engine_factory : World → World * Engine;
  react : World → ChatLine → model.Game → World * Result unit;
  abort_in : World → model.Game → Z → model.Game;
  should_abort_now : World → model.Game → bool;
}.

(** The calls a worker makes, for counting them. *)
Inductive Call (Board Move : Type) : Type :=
| CallEngineMove (board : Board) (clock : gmap string Z)
| CallMakeMove (game_id : string) (move : Move)
| CallAbort (game_id : string)
| CallReact (line : ChatLine)
| CallGetOngoingGames
| CallEngineStop.
Arguments CallEngineMove {Board Move} board clock.
Arguments CallMakeMove {Board Move} game_id move.
Arguments CallAbort {Board Move} game_id.
Arguments CallReact {Board Move} line.
Arguments CallGetOngoingGames {Board Move}.
Arguments CallEngineStop {Board Move}.

(** [str.lower], on ASCII letters. *)
Definition lower_ascii (c : Ascii.ascii) : Ascii.ascii :=
  let n := Ascii.N_of_ascii c in
  if ((65 <=? n) && (n <=? 90))%N then Ascii.ascii_of_N (n + 32) else c.

Fixpoint lower (s : string) : string :=
  match s with
  | EmptyString => EmptyString
  | String c s' => String (lower_ascii c) (lower s')
  end.

(** ** Board helpers *)

Section Board.
Context {Board Move : Type} `{!Rules Board Move}.

(** [board.push] changes the board in place and [update_board] returns it;
    the worker holds the only reference, so the new board is the value. *)
Definition update_board (board : Board) (move : string) : Result Board :=
  match from_uci move with
  | Ok uci_move => Ok (push board uci_move)
  | Raise e => Raise e
  end.

(** The [for move in moves] loop of [setup_board]. *)
Fixpoint replay (board : Board) (the_moves : list string) : Result Board :=
  match the_moves with
  | [] => Ok board
  | move :: rest =>
      match update_board board move with
      | Ok board' => replay board' rest
      | Raise e => Raise e
      end
  end.

Definition setup_board (game : model.Game) : Result Board :=
  let initial :=
    if bool_decide (lower (model.variant_name game) = "chess960"%string)
    then chess_Board (model.initial_fen game) true
    else if bool_decide (model.variant_name game = "From Position"%string)
    then chess_Board (model.initial_fen game) false
    else find_variant (model.variant_name game) in
  match initial with
  | Ok board => replay board (model.moves (model.state game))
  | Raise e => Raise e
  end.

End Board.

Definition is_white_to_move (game : model.Game) (the_moves : list string) : bool :=
  bool_decide (Z.of_nat (length the_moves) `mod` 2
               = if model.white_starts game then 0 else 1).

Definition is_engine_move (game : model.Game) (the_moves : list string) : bool :=
  Bool.eqb (model.is_white game) (is_white_to_move game the_moves).

(** ** The game worker: [play_game] *)

(** The keys of the set literal [{'wtime', 'btime', 'winc', 'binc'}]. *)
Definition clock_keys : gset string :=
  {[ "wtime"%string; "btime"%string; "winc"%string; "binc"%string ]}.

(** [{key: upd[key] for key in upd.keys() & {...}}] *)
Definition clock_of (upd : model.GameState) : gmap string Z :=
  filter (λ kv, kv.1 ∈ clock_keys) (model.numbers upd).

(** [{'movetime': 10000,}] *)
Definition first_move_clock : gmap string Z := {[ "movetime"%string := 10000 ]}.

Section GameWorker.
Context {Challenge World Board Move Engine : Type}.
Context `{!Rules Board Move, !EngineHandle Engine Board Move}.
Context `{!WorkerTransport World Move, !WorkerEnv World Engine}.

(** The local variables of one call of [play_game], with the world and the
    log of the calls made so far. *)
Record Worker : Type := {
  game : model.Game;
  board : Board;
  engine : Engine;
  world : World;
  calls : list (Call Board Move);
}.

Definition set_game (g : model.Game) (st : Worker) : Worker :=
  {| game := g; board := board st; engine := engine st;
     world := world st; calls := calls st |}.

Definition set_board (b : Board) (st : Worker) : Worker :=
  {| game := game st; board := b; engine := engine st;
     world := world st; calls := calls st |}.

Definition set_engine (e : Engine) (st : Worker) : Worker :=
  {| game := game st; board := board st; engine := e;
     world := world st; calls := calls st |}.

(** An outside call was made: the world it left, and one more log entry. *)
Definition called (c : Call Board Move) (w : World) (st : Worker) : Worker :=
  {| game := game st; board := board st; engine := engine st;
     world := w; calls := calls st ++ [c] |}.

(** [engine.move(board, clock)] followed by [li.make_move(game.id, best_move)]. *)
Definition move_and_submit (clock : gmap string Z) (st : Worker)
    : Result unit * Worker :=
  let '(engine', best_move) := engine_move (engine st) (board st) clock in
  let st1 := called (CallEngineMove (board st) clock) (world st)
               (set_engine engine' st) in
  let '(w, r) := make_move (world st1) (model.id (game st1)) best_move in
  (r, called (CallMakeMove (model.id (game st1)) best_move) w st1).

Definition play_first_move (st : Worker) : Result bool * Worker :=
  let the_moves := model.moves (model.state (game st)) in
  if is_engine_move (game st) the_moves then
    match move_and_submit first_move_clock st with
    | (Ok _, st') => (Ok true, st')
    | (Raise e, st') => (Raise e, st')
    end
  else (Ok false, st).

(** The [gameState] branch. *)
Definition on_game_state (config : Config) (upd : model.GameState)
    (st : Worker) : Result unit * Worker :=
  let st1 := set_game (model.set_state upd (game st)) st in
  let the_moves := model.moves upd in
  match last the_moves with
  | None => (Raise IndexError, st1)
  | Some newest =>
      match update_board (board st1) newest with
      | Raise e => (Raise e, st1)
      | Ok board' =>
          let st2 := set_board board' st1 in
          if negb (is_game_over board') && is_engine_move (game st2) the_moves then
            match move_and_submit (clock_of upd) st2 with
            | (Ok _, st3) =>
                (Ok (), set_game
                          (abort_in (world st3) (game st3)
                             (default 20 (abort_time config))) st3)
            | (Raise e, st3) => (Raise e, st3)
            end
          else (Ok (), st2)
      end
  end.

(** The [ping] branch. *)
Definition on_ping (st : Worker) : Result unit * Worker :=
  if should_abort_now (world st) (game st) then
    let '(w, r) := abort (world st) (model.id (game st)) in
    (r, called (CallAbort (model.id (game st))) w st)
  else (Ok (), st).

(** The [chatLine] branch. *)
Definition on_chat_line (line : ChatLine) (st : Worker) : Result unit * Worker :=
  let '(w, r) := react (world st) line (game st) in
  (r, called (CallReact line) w st).

(** The body of [for binary_chunk in lines].  A blank chunk gives
    [upd = None] and [u_type = "ping"]. *)
Definition handle_chunk (config : Config) (binary_chunk : GameLine)
    (st : Worker) : Result unit * Worker :=
  match binary_chunk with
  | GGarbled => (Raise ValueError, st)
  | GBlank => on_ping st
  | GJson (ChatLineUpd line) => on_chat_line line st
  | GJson (GameStateUpd upd) => on_game_state config upd st
  | GJson OtherUpd => (Ok (), st)
  end.

Fixpoint handle_chunks (config : Config) (lines : list GameLine)
    (st : Worker) : Result unit * Worker :=
  match lines with
  | [] => (Ok (), st)
  | binary_chunk :: rest =>
      match handle_chunk config binary_chunk st with
      | (Ok _, st') => handle_chunks config rest st'
      | raised => raised
      end
  end.

(** The body of the [try]. *)
Definition try_body (config : Config) (response : GameStream)
    (st : Worker) : Result unit * Worker :=
  match play_first_move st with
  | (Raise e, st1) => (Raise e, st1)
  | (Ok _, st1) =>
      match handle_chunks config (game_lines response) st1 with
      | (Ok _, st2) =>
          match game_end response with
          | Exhausted => (Ok (), st2)
          | Broken e => (Raise e, st2)
          end
      | raised => raised
      end
  end.

(** The two [except] clauses.  In the first, [response.status_code] is the
    [int] of a [requests.Response], so the concatenation in the
    [logger.warn] argument raises [TypeError]. *)
Definition except_clauses (r : Result unit) (st : Worker) : Result unit * Worker :=
  match r with
  | Ok _ => (Ok (), st)
  | Raise (HTTPError _) =>
      match get_ongoing_games (world st) with
      | (w, Raise e) => (Raise e, called CallGetOngoingGames w st)
      | (w, Ok ongoing_games) =>
          let game_over := negb (bool_decide (model.id (game st) ∈ ongoing_games)) in
          if negb game_over
          then (Raise TypeError, called CallGetOngoingGames w st)
          else (Ok (), called CallGetOngoingGames w st)
      end
  | Raise e => if is_connection_error e then (Ok (), st) else (Raise e, st)
  end.

(** What outlives one call of [play_game]. *)
Record Session : Type := {
  session_queue : list (Event Challenge);
  session_world : World;
  session_calls : list (Call Board Move);
}.

(** One call of the undecorated function.  The statements before the [try]
    are outside the [finally]. *)
Definition play_game_once (config : Config) (game_id : string)
    (s : Session) : Result unit * Session :=
  let leave (w : World) :=
    {| session_queue := session_queue s; session_world := w;
       session_calls := session_calls s |} in
  match get_game_stream (session_world s) game_id with
  | (w, Raise e) => (Raise e, leave w)
  | (w, Ok response) =>
      match snapshot response with
      | Raise e => (Raise e, leave w)
      | Ok the_game =>
          match setup_board the_game with
          | Raise e => (Raise e, leave w)
          | Ok the_board =>
              let '(w1, the_engine) := engine_factory w in
              let st := {| game := the_game; board := the_board;
                           engine := the_engine; world := w1;
                           calls := session_calls s |} in
              let '(r, st1) := try_body config response st in
              let '(r', st2) := except_clauses r st1 in
              (r', {| session_queue := session_queue s ++ [EvLocalGameDone];
                      session_world := world st2;
                      session_calls := calls st2 ++ [CallEngineStop] |})
          end
      end
  end.

(** The decorated function. *)
Definition play_game (retries : nat) (config : Config) (game_id : string)
    (s : Session) : Result unit * Session :=
  backoff retries (play_game_once config game_id) s.

End GameWorker.

(** ** The entry point: [serve_lichess] *)

Record Profile : Type := {
  profile_username : string;
  title : option string;
}.

(** [li.get_profile()] and [li.upgrade_to_bot_account()], which returns
    [None] when the upgrade fails. *)
Class AccountTransport (World : Type) : Type := {
  get_profile : World → World * Result Profile;
  upgrade_to_bot_account : World → World * Result (option unit);
}.

(** The dict literal bound to [CONFIG]. *)
Definition CONFIG (the_url : string) (the_concurrency : Z)
    (the_time_controls the_modes : list string) : Config :=
  {| url := the_url;
     abort_time := Some 20;
     challenge :=
       {| concurrency := Some the_concurrency;
          sort_by := Some "first"%string;
          accept_bot := true;
          max_increment := 180;
          min_increment := 0;
          variants := ["standard"%string];
          time_controls := the_time_controls;
          modes := the_modes |} |}.

Section ServeLichess.
Context {World : Type} `{!AccountTransport World}.

Definition upgrade_account (w : World) : World * Result bool :=
  match upgrade_to_bot_account w with
  | (w', Ok None) => (w', Ok false)
  | (w', Ok (Some _)) => (w', Ok true)
  | (w', Raise e) => (w', Raise e)
  end.

(** [serve_lichess], up to its call of [start]: the result is the
    [(user_profile, CONFIG)] that [start] receives, or [None] when the
    account is no bot account and [start] is not called.  [w] is the world
    seen through [li = lichess.Lichess(token, url, __version__)]. *)
Definition serve_lichess (w : World) (the_concurrency : Z)
    (the_time_controls the_modes : list string) (verbose upgrade : bool)
    (the_url : string) : World * Result (option (Profile * Config)) :=
  match get_profile w with
  | (w1, Raise e) => (w1, Raise e)
  | (w1, Ok user_profile) =>
      let is_bot := bool_decide (title user_profile = Some "BOT"%string) in
      let config := CONFIG the_url the_concurrency the_time_controls the_modes in
      if upgrade && negb is_bot then
        match upgrade_account w1 with
        | (w2, Raise e) => (w2, Raise e)
        | (w2, Ok is_bot') =>
            (w2, Ok (if is_bot' then Some (user_profile, config) else None))
        end
      else (w1, Ok (if is_bot then Some (user_profile, config) else None))
  end.

End ServeLichess.

(** * Vocabulary of the properties *)

(** ** Worker-slot accounting *)

Section SlotAccounting.
Context {Challenge World : Type}.
Context `{!ChallengeModel Challenge, !DispatcherTransport World}.

(** The invariant of the worker-slot counters. *)
Definition slot_invariant (challenge_config : ChallengeConfig)
    (st : @Dispatcher Challenge World) : Prop :=
  0 ≤ queued_processes st ∧ 0 ≤ busy_processes st
  ∧ queued_processes st + busy_processes st ≤ max_games challenge_config.

(** An event finds its slot: a [gameStart] arrives while a process is
    queued, a [local_game_done] while a process is busy. *)
Definition finds_slot (event : Event Challenge)
    (st : @Dispatcher Challenge World) : bool :=
  match event with
  | EvGameStart _ => bool_decide (0 < queued_processes st)
  | EvLocalGameDone => bool_decide (0 < busy_processes st)
  | _ => true
  end.

(** Every event that the loop processes finds its slot. *)
Fixpoint slots_paired (challenge_config : ChallengeConfig)
    (events : list (Event Challenge)) (st : @Dispatcher Challenge World) : bool :=
  match events with
  | [] => true
  | EvTerminated :: _ => true
  | event :: rest =>
      finds_slot event st
      && match dispatch challenge_config event st with
         | Running st' => slots_paired challenge_config rest st'
         | _ => true
         end
  end.

(** The supported challenges among the events, in the order of arrival. *)
Fixpoint supported_challenges (challenge_config : ChallengeConfig)
    (events : list (Event Challenge)) : list Challenge :=
  match events with
  | [] => []
  | EvChallenge chlng :: rest =>
      if is_supported chlng challenge_config
      then chlng :: supported_challenges challenge_config rest
      else supported_challenges challenge_config rest
  | _ :: rest => supported_challenges challenge_config rest
  end.

(** The challenges of the [challenge] events, supported or not. *)
Fixpoint challenges_of (events : list (Event Challenge)) : list Challenge :=
  match events with
  | [] => []
  | EvChallenge chlng :: rest => chlng :: challenges_of rest
  | _ :: rest => challenges_of rest
  end.

(** The state an outcome carries. *)
Definition state_of (o : @Outcome Challenge World) : Dispatcher :=
  match o with
  | Running st | Finished st | Raised _ st => st
  end.

(** The loop got through an admission pass, and no exception left it. *)
Definition after_pass (o : @Outcome Challenge World)
    (st : @Dispatcher Challenge World) : Prop :=
  o = Running st ∨ o = Finished st.

End SlotAccounting.

(** ** A scripted server, for running the dispatcher on concrete events *)

(** A challenge offer reduced to its identifier, variant and score. *)
Record Offer : Type := {
  offer_id : string;
  offer_variant : string;
  offer_score : Z;
}.

(** An offer is supported when its variant is among the allowed ones. *)
#[export] Instance offer_model : ChallengeModel Offer := {|
  challenge_id := offer_id;
  is_supported := λ chlng challenge_config,
    bool_decide (offer_variant chlng ∈ variants challenge_config);
  score := offer_score;
|}.

(** The server answers by identifier: 404 for ["gone"], 403 for
    ["denied"], success for every other challenge. *)
Definition scripted_answer (challenge_id : string) : Result unit :=
  if bool_decide (challenge_id = "gone"%string) then Raise (HTTPError 404)
  else if bool_decide (challenge_id = "denied"%string) then Raise (HTTPError 403)
  else Ok ().

#[export] Instance scripted_server : DispatcherTransport unit := {|
  accept_challenge := λ w challenge_id, (w, scripted_answer challenge_id);
  decline_challenge := λ w challenge_id, (w, scripted_answer challenge_id);
|}.

(** The configuration [serve_lichess] builds from its default arguments. *)
Definition default_config : Config :=
  CONFIG "https://lichess.org/" 1
    ["bullet"%string; "blitz"%string; "rapid"%string] ["casual"%string].

(** The same with the best-first policy and a given capacity. *)
Definition best_first (capacity : Z) : ChallengeConfig :=
  {| concurrency := Some capacity;
     sort_by := Some "best"%string;
     accept_bot := true;
     max_increment := 180;
     min_increment := 0;
     variants := ["standard"%string];
     time_controls := ["bullet"%string; "blitz"%string; "rapid"%string];
     modes := ["casual"%string] |}.

Definition offer (the_id : string) (the_score : Z) : Offer :=
  {| offer_id := the_id; offer_variant := "standard"; offer_score := the_score |}.

(** An account that is a bot account already. *)
#[export] Instance bot_account : AccountTransport unit := {|
  get_profile := λ w, (w, Ok {| profile_username := "engine"; title := Some "BOT"%string |});
  upgrade_to_bot_account := λ w, (w, Ok None);
|}.

(** ** The control stream *)

(** The events that the lines of a stream put on the control queue. *)
Definition events_of {Challenge : Type} (lines : list (ControlLine Challenge))
    : list (Event Challenge) :=
  flat_map (λ line, match line with
                    | CBlank => [EvPing]
                    | CJson event => [event]
                    | CGarbled => []
                    end) lines.

(** A server that delivers the stream it is given, on every connection. *)
#[export] Instance replaying_server : ControlTransport Offer (ControlStream Offer) := {|
  get_event_stream := λ w, (w, Ok w);
|}.

(** ** The game worker *)

(** The calls of one kind in a log. *)
Definition count_calls {Board Move : Type} (kind : Call Board Move → bool)
    (log : list (Call Board Move)) : nat :=
  length (List.filter kind log).

Definition engine_requests {Board Move : Type} (log : list (Call Board Move)) : nat :=
  count_calls (λ c, match c with CallEngineMove _ _ => true | _ => false end) log.

Definition move_submissions {Board Move : Type} (log : list (Call Board Move)) : nat :=
  count_calls (λ c, match c with CallMakeMove _ _ => true | _ => false end) log.

Definition abort_requests {Board Move : Type} (log : list (Call Board Move)) : nat :=
  count_calls (λ c, match c with CallAbort _ => true | _ => false end) log.

(** The game with another move list in its state. *)
Definition with_moves (the_moves : list string) (game : model.Game) : model.Game :=
  model.set_state
    {| model.moves := the_moves;
       model.numbers := model.numbers (model.state game) |} game.

(** The move lists of the [gameState] updates that follow a snapshot with
    the moves [seen], one update for each of the moves [next]. *)
Fixpoint updates_after (seen next : list string) : list (list string) :=
  match next with
  | [] => []
  | move :: rest => (seen ++ [move]) :: updates_after (seen ++ [move]) rest
  end.

Section Advance.
Context {Board Move : Type} `{!Rules Board Move}.

(** What the [gameState] branch does to the board:
    [board = update_board(board, moves[-1])]. *)
Definition advance (board : Board) (the_moves : list string) : Result Board :=
  match last the_moves with
  | None => Raise IndexError
  | Some newest => update_board board newest
  end.

(** The same for the updates of a stream, in order. *)
Fixpoint advance_all (start_board : Result Board) (updates : list (list string))
    : Result Board :=
  match updates with
  | [] => start_board
  | the_moves :: rest =>
      match start_board with
      | Ok board => advance_all (advance board the_moves) rest
      | Raise e => Raise e
      end
  end.

End Advance.

(** *** A scripted game server and a fixed engine *)

(** The board is the list of the moves pushed, a move is a UCI string of
    four or five characters, and the game is over after the fourth move. *)
#[export] Instance recording_rules : Rules (list string) string := {|
  chess_Board := λ fen chess960, Ok [];
  find_variant := λ name, Ok [];
  from_uci := λ move,
    if bool_decide (String.length move = 4%nat ∨ String.length move = 5%nat)
    then Ok move else Raise ValueError;
  push := λ board move, board ++ [move];
  is_game_over := λ board, bool_decide (4 ≤ length board)%nat;
|}.

(** The engine always answers [e7e5]. *)
#[export] Instance fixed_engine : EngineHandle unit (list string) string := {|
  engine_move := λ engine board clock, (engine, "e7e5"%string);
|}.

(** The world is the list of the answers to the calls of
    [get_game_stream] to come; when it is empty the game is gone (404).
    Every other call succeeds, and no game is listed as ongoing. *)
#[export] Instance scripted_games : WorkerTransport (list (Result GameStream)) string := {|
  get_game_stream := λ w game_id,
    match w with
    | [] => ([], Raise (HTTPError 404))
    | answer :: rest => (rest, answer)
    end;
  make_move := λ w game_id move, (w, Ok ());
  abort := λ w game_id, (w, Ok ());
  get_ongoing_games := λ w, (w, Ok []);
|}.

(** The deadline has passed when [abort_at] is not positive. *)
#[export] Instance scripted_env : WorkerEnv (list (Result GameStream)) unit := {|
  engine_factory := λ w, (w, ());
  react := λ w line game, (w, Ok ());
  abort_in := λ w game seconds,
    {| model.id := model.id game; model.variant_name := model.variant_name game;
       model.initial_fen := model.initial_fen game;
       model.white_starts := model.white_starts game;
       model.is_white := model.is_white game; model.state := model.state game;
       model.abort_at := seconds |};
  should_abort_now := λ w game, bool_decide (model.abort_at game ≤ 0);
|}.

(** A standard game in which the engine plays black. *)
Definition black_game (the_moves : list string) (deadline : Z) : model.Game :=
  {| model.id := "g"; model.variant_name := "Standard";
     model.initial_fen := "startpos"; model.white_starts := true;
     model.is_white := false;
     model.state := {| model.moves := the_moves; model.numbers := ∅ |};
     model.abort_at := deadline |}.

Definition game_state (the_moves : list string) : GameLine :=
  GJson (GameStateUpd {| model.moves := the_moves; model.numbers := ∅ |}).

Definition empty_session : @Session Offer (list (Result GameStream)) (list string) string :=
  {| session_queue := []; session_world := []; session_calls := [] |}.

Definition session_with (answers : list (Result GameStream))
    : @Session Offer (list (Result GameStream)) (list string) string :=
  {| session_queue := []; session_world := answers; session_calls := [] |}.

(** The streams of a game that is aborted before its first move: the
    update of the first connection has no moves, the second connection
    delivers the snapshot and ends. *)
Definition aborted_stream : GameStream :=
  {| snapshot := Ok (black_game [] 20);
     game_lines := [game_state []];
     game_end := Exhausted |}.

Definition finished_stream : GameStream :=
  {| snapshot := Ok (black_game [] 20); game_lines := []; game_end := Exhausted |}.


(** ** Counting events and calls *)

(** The game ids of the [gameStart] events, in order. *)
Fixpoint started_games {Challenge : Type} (events : list (Event Challenge))
    : list string :=
  match events with
  | [] => []
  | EvGameStart game_id :: rest => game_id :: started_games rest
  | _ :: rest => started_games rest
  end.

(** The number of [local_game_done] events. *)
Fixpoint finished_games {Challenge : Type} (events : list (Event Challenge)) : nat :=
  match events with
  | [] => 0%nat
  | EvLocalGameDone :: rest => Datatypes.S (finished_games rest)
  | _ :: rest => finished_games rest
  end.

Definition engine_stops {Board Move : Type} (log : list (Call Board Move)) : nat :=
  count_calls (λ c, match c with CallEngineStop => true | _ => false end) log.

(** The game with another initial position. *)
Definition with_fen (fen : string) (game : model.Game) : model.Game :=
  {| model.id := model.id game; model.variant_name := model.variant_name game;
     model.initial_fen := fen; model.white_starts := model.white_starts game;
     model.is_white := model.is_white game; model.state := model.state game;
     model.abort_at := model.abort_at game |}.

Section BeforeTheTry.
Context {Board Move : Type} `{!Rules Board Move}.

(** The exception, if any, of the statements of [play_game] that precede
    its [try], given the answer of [li.get_game_stream]. *)
Definition fails_before_try (answer : Result GameStream) : option Exn :=
  match answer with
  | Raise e => Some e
  | Ok response =>
      match snapshot response with
      | Raise e => Some e
      | Ok the_game =>
          match (setup_board the_game : Result Board) with
          | Raise e => Some e
          | Ok _ => None
          end
      end
  end.

End BeforeTheTry.

(** A first-come configuration with a given capacity. *)
Definition first_come (capacity : Z) : ChallengeConfig :=
  challenge (CONFIG "https://lichess.org/" capacity
               ["bullet"%string; "blitz"%string; "rapid"%string] ["casual"%string]).

(** An account that is no bot account yet and whose upgrade succeeds. *)
Inductive Visitor : Type := visitor.

#[export] Instance upgradable_account : AccountTransport Visitor := {|
  get_profile := λ w, (w, Ok {| profile_username := "engine"; title := None |});
  upgrade_to_bot_account := λ w, (w, Ok (Some ()));
|}.

(** A server whose event stream cannot be opened twice, then delivers one
    blank line: the world counts the failures still to come. *)
#[export] Instance flaky_server : ControlTransport Offer nat := {|
  get_event_stream := λ w,
    match w with
    | O => (O, Ok {| control_lines := [CBlank]; control_end := Exhausted |})
    | Datatypes.S n => (n, Raise ConnectionError)
    end;
|}.
(** * Properties *)

(** ** The stable sort *)

Section StableSortFacts.
Context {A : Type} (key : A → Z).

Lemma insert_by_key_perm (x : A) (l : list A) :
  insert_by_key key x l ≡ₚ x :: l.
Proof.
  induction l as [|y l IH]; simpl; [done|].
  case_bool_decide; [done|].
  rewrite IH. apply Permutation_swap.
Qed.

Lemma sort_by_key_perm (l : list A) : sort_by_key key l ≡ₚ l.
Proof.
  induction l as [|x l IH]; simpl; [done|].
  by rewrite insert_by_key_perm, IH.
Qed.

Lemma insert_by_key_sorted (x : A) (l : list A) :
  Sorted (key_le key) l → Sorted (key_le key) (insert_by_key key x l).
Proof.
  induction 1 as [|y l Hs IH Hhd]; simpl.
  - repeat constructor.
  - case_bool_decide as Hxy.
    + constructor; [by constructor|]. by constructor.
    + constructor; [done|].
      destruct Hhd as [|z l Hyz]; simpl.
      * constructor. unfold key_le. lia.
      * case_bool_decide; constructor; unfold key_le in *; lia.
Qed.

Lemma sort_by_key_sorted (l : list A) : Sorted (key_le key) (sort_by_key key l).
Proof.
  induction l as [|x l IH]; simpl; [constructor|].
  by apply insert_by_key_sorted.
Qed.

(** Elements with one key stay in the order they had. *)
Lemma insert_by_key_stable (k : Z) (x : A) (l : list A) :
  filter (λ a, key a = k) (insert_by_key key x l)
  = filter (λ a, key a = k) (x :: l).
Proof.
  induction l as [|y l IH]; simpl; [done|].
  case_bool_decide as Hxy; [done|].
  rewrite !filter_cons in *.
  destruct (decide (key y = k)), (decide (key x = k)); simplify_eq; try lia;
    by rewrite IH.
Qed.

Lemma sort_by_key_stable (k : Z) (l : list A) :
  filter (λ a, key a = k) (sort_by_key key l) = filter (λ a, key a = k) l.
Proof.
  induction l as [|x l IH]; simpl; [done|].
  rewrite insert_by_key_stable, !filter_cons. by rewrite IH.
Qed.

Lemma sorted_head_least (x : A) (l : list A) :
  Sorted (key_le key) (x :: l) → ∀ y, y ∈ l → key x ≤ key y.
Proof.
  intros Hs. apply Sorted_StronglySorted in Hs.
  - inversion_clear Hs as [|? ? _ Hall]. intros y Hy.
    rewrite Forall_forall in Hall. by apply Hall.
  - intros a b c. unfold key_le. lia.
Qed.

(** A sorted list is determined by its sub-lists of equal keys: whatever
    stable sort [list.sort] runs, it returns what [sort_by_key] returns. *)
Lemma sorted_stable_unique (l1 l2 : list A) :
  Sorted (key_le key) l1 → Sorted (key_le key) l2 →
  (∀ k, filter (λ a, key a = k) l1 = filter (λ a, key a = k) l2) →
  l1 = l2.
Proof.
  revert l2. induction l1 as [|x l1 IH]; intros l2 Hs1 Hs2 Hf.
  - destruct l2 as [|y l2]; [done|].
    specialize (Hf (key y)). rewrite filter_cons in Hf.
    by destruct (decide (key y = key y)).
  - destruct l2 as [|y l2].
    { specialize (Hf (key x)). rewrite filter_cons in Hf.
      by destruct (decide (key x = key x)). }
    assert (key x ≤ key y) as Hxy.
    { destruct (decide (key x = key y)) as [->|Hne]; [lia|].
      assert (y ∈ l1) as Hy.
      { assert (y ∈ filter (λ a, key a = key y) (x :: l1)) as Hin.
        { rewrite Hf, filter_cons. destruct (decide (key y = key y)); [|done].
          apply list_elem_of_here. }
        rewrite filter_cons in Hin. destruct (decide (key x = key y)); [done|].
        by apply list_elem_of_filter in Hin as [_ ?]. }
      by apply (sorted_head_least x l1). }
    assert (key y ≤ key x) as Hyx.
    { destruct (decide (key x = key y)) as [->|Hne]; [lia|].
      assert (x ∈ l2) as Hx.
      { assert (x ∈ filter (λ a, key a = key x) (y :: l2)) as Hin.
        { rewrite <- Hf, filter_cons. destruct (decide (key x = key x)); [|done].
          apply list_elem_of_here. }
        rewrite filter_cons in Hin. destruct (decide (key y = key x)); [lia|].
        by apply list_elem_of_filter in Hin as [_ ?]. }
      by apply (sorted_head_least y l2). }
    assert (x = y) as ->.
    { specialize (Hf (key x)). rewrite !filter_cons in Hf.
      destruct (decide (key x = key x)); [|done].
      destruct (decide (key y = key x)); [|lia]. by simplify_eq. }
    f_equal. apply IH.
    + by inversion Hs1.
    + by inversion Hs2.
    + intros k. specialize (Hf k). rewrite !filter_cons in Hf.
      destruct (decide (key y = k)); by simplify_eq.
Qed.

End StableSortFacts.

(** ** Lists *)

Lemma submseteq_NoDup {A : Type} (l k : list A) : l ⊆+ k → NoDup k → NoDup l.
Proof.
  intros Hsub Hk. apply submseteq_Permutation in Hsub as [k' Hperm].
  rewrite Hperm in Hk. by apply NoDup_app in Hk as [? _].
Qed.

Lemma suffix_submseteq {A : Type} (l k : list A) : l `suffix_of` k → l ⊆+ k.
Proof. intros [k' ->]. by apply submseteq_inserts_l. Qed.

Lemma Sorted_suffix {A : Type} (R : relation A) (l k : list A) :
  l `suffix_of` k → Sorted R k → Sorted R l.
Proof.
  intros [k' ->]. induction k' as [|x k' IH]; simpl; [done|].
  intros Hs. apply IH. by inversion Hs.
Qed.

Lemma Sorted_weaken {A : Type} (R R' : relation A) (l : list A) :
  (∀ a b, R a b → R' a b) → Sorted R l → Sorted R' l.
Proof.
  intros HR. induction 1 as [|x l Hs IH Hhd]; constructor; [done|].
  destruct Hhd; constructor; auto.
Qed.

Lemma filter_suffix {A : Type} (P : A → Prop) `{!∀ x, Decision (P x)}
    (l k : list A) :
  l `suffix_of` k → filter P l `suffix_of` filter P k.
Proof. intros [k' ->]. rewrite filter_app. by apply suffix_app_r. Qed.

(** ** The dispatcher *)

Section DispatcherFacts.
Context {Challenge World : Type}.
Context `{!ChallengeModel Challenge, !DispatcherTransport World}.

Implicit Types (st : @Dispatcher Challenge World) (cfg : ChallengeConfig).

(** What an admission pass that ends normally leaves behind. *)
Lemma drain_queue_running capacity busy the_pool queue queued w st :
  drain_queue capacity busy the_pool queue queued w = Running st →
  busy_processes st = busy ∧ pool st = the_pool
  ∧ queued ≤ queued_processes st
  ∧ challenge_queue st `suffix_of` queue
  ∧ queued_processes st + busy ≤ Z.max capacity (queued + busy)
  ∧ (challenge_queue st = [] ∨ capacity ≤ queued_processes st + busy).
Proof.
  revert queued w. induction queue as [|chlng rest IH]; intros queued w; simpl.
  - intros [= <-]; simpl. repeat split; try done; try lia. by left.
  - case_bool_decide as Hroom.
    + destruct (accept_challenge w (challenge_id chlng)) as [w' [[]|e]].
      * intros Hrun. apply IH in Hrun as (? & ? & ? & ? & ? & ?).
        repeat split; try done; try lia. by apply suffix_cons_r.
      * destruct e; try done. case_bool_decide; [|done].
        intros Hrun. apply IH in Hrun as (? & ? & ? & ? & ? & ?).
        repeat split; try done; try lia. by apply suffix_cons_r.
    + intros [= <-]; simpl. repeat split; try done; try lia.
Qed.

Lemma drain_queue_not_finished capacity busy the_pool queue queued w st :
  drain_queue capacity busy the_pool queue queued w ≠ Finished st.
Proof.
  revert queued w. induction queue as [|chlng rest IH]; intros queued w; simpl; [done|].
  case_bool_decide; [|done].
  destruct (accept_challenge w (challenge_id chlng)) as [w' [[]|e]]; [done|].
  destruct e; try done. by case_bool_decide.
Qed.

(** An admission pass that raises leaves the counters of busy workers
    alone, too. *)
Lemma drain_queue_raised capacity busy the_pool queue queued w e st :
  drain_queue capacity busy the_pool queue queued w = Raised e st →
  busy_processes st = busy ∧ queued ≤ queued_processes st.
Proof.
  revert queued w. induction queue as [|chlng rest IH]; intros queued w; simpl; [done|].
  case_bool_decide; [|done].
  destruct (accept_challenge w (challenge_id chlng)) as [w' [[]|e']].
  - intros Hr. apply IH in Hr as [? ?]. split; [done|lia].
  - destruct e'; try (intros [= <- <-]; simpl; split; [done|lia]).
    case_bool_decide.
    + intros Hr. by apply IH in Hr.
    + intros [= <- <-]; simpl. split; [done|lia].
Qed.

Lemma handle_event_not_finished cfg event st st' :
  handle_event cfg event st ≠ Finished st'.
Proof.
  destruct event; simpl; try done.
  destruct (is_supported _ _); [done|].
  destruct (decline_challenge _ _) as [w [[]|e]]; [done|].
  destruct e; try done. by case_bool_decide.
Qed.

Lemma dispatch_not_finished cfg event st st' :
  dispatch cfg event st ≠ Finished st'.
Proof.
  unfold dispatch.
  destruct (handle_event cfg event st) eqn:Hh; try done.
  - apply drain_queue_not_finished.
  - by apply handle_event_not_finished in Hh.
Qed.

(** The handlers never take [queued_processes] below zero. *)
Lemma handle_event_queued cfg event st st' :
  handle_event cfg event st = Running st' →
  0 ≤ queued_processes st → 0 ≤ queued_processes st'.
Proof.
  destruct event; simpl.
  - by intros [= <-].
  - by intros [= <-].
  - destruct (is_supported _ _); [by intros [= <-]|].
    destruct (decline_challenge _ _) as [w [[]|e]]; [by intros [= <-]|].
    destruct e; try done. case_bool_decide; [done|]. by intros [= <-].
  - intros [= <-]; simpl. case_bool_decide; lia.
  - by intros [= <-].
  - by intros [= <-].
Qed.

Lemma dispatch_queued cfg event st st' :
  dispatch cfg event st = Running st' →
  0 ≤ queued_processes st → 0 ≤ queued_processes st'.
Proof.
  unfold dispatch, drain.
  destruct (handle_event cfg event st) as [st1| |] eqn:Hh; try done.
  intros Hd Hq. apply drain_queue_running in Hd as (_ & _ & Hle & _).
  apply handle_event_queued in Hh; [lia|done].
Qed.

(** One iteration keeps the slot invariant when its event finds its slot. *)
Lemma dispatch_slot_invariant cfg event st st' :
  finds_slot event st = true →
  dispatch cfg event st = Running st' →
  slot_invariant cfg st → slot_invariant cfg st'.
Proof.
  unfold dispatch, drain, slot_invariant.
  intros Hslot Hd (Hq & Hb & Hsum).
  destruct (handle_event cfg event st) as [st1| |] eqn:Hh; try done.
  apply drain_queue_running in Hd as (Hb' & _ & Hq' & _ & Hmax & _).
  assert (0 ≤ queued_processes st1 ∧ 0 ≤ busy_processes st1
          ∧ queued_processes st1 + busy_processes st1 ≤ max_games cfg)
    as (? & ? & ?); [|lia].
  destruct event; simpl in Hh, Hslot.
  - by injection Hh as <-.
  - injection Hh as <-; simpl. apply bool_decide_eq_true in Hslot. lia.
  - destruct (is_supported _ _); [by injection Hh as <-|].
    destruct (decline_challenge _ _) as [w [[]|e]]; [by injection Hh as <-|].
    destruct e; try done. case_bool_decide; [done|]. by injection Hh as <-.
  - injection Hh as <-; simpl. apply bool_decide_eq_true in Hslot.
    case_bool_decide; lia.
  - by injection Hh as <-.
  - by injection Hh as <-.
Qed.

(** The loop, one event at a time. *)
Lemma start_loop_cons cfg event rest st :
  event ≠ EvTerminated →
  start_loop cfg (event :: rest) st
  = match dispatch cfg event st with
    | Running st' => start_loop cfg rest st'
    | other => other
    end.
Proof. by destruct event. Qed.

(** An invariant of the iterations, which may speak of the events
    processed so far, holds wherever the loop waits for its next event. *)
Lemma start_loop_running_inv
    (P : list (Event Challenge) → @Dispatcher Challenge World → Prop) cfg :
  (∀ hist event st st',
      P hist st → dispatch cfg event st = Running st' → P (hist ++ [event]) st') →
  ∀ events hist st st',
    P hist st → start_loop cfg events st = Running st' → P (hist ++ events) st'.
Proof.
  intros Hstep. induction events as [|event rest IH]; intros hist st st' HP.
  - simpl. intros [= <-]. by rewrite app_nil_r.
  - destruct event; [done|..].
    all: rewrite start_loop_cons by done.
    all: destruct (dispatch cfg _ st) as [st1| |] eqn:Hd; try done.
    all: intros Hrest; rewrite cons_middle, app_assoc.
    all: apply (IH _ st1); [|done]; by eapply Hstep.
Qed.

(** The state in which [terminated] ends the loop is the state in which
    the loop waited after the events before it. *)
Lemma start_loop_finished cfg events st st' :
  start_loop cfg events st = Finished st' →
  ∃ before rest, events = before ++ EvTerminated :: rest
                 ∧ start_loop cfg before st = Running st'.
Proof.
  revert st. induction events as [|event rest IH]; intros st; [done|].
  destruct event; [intros [= <-]; by exists [], rest|..].
  all: rewrite start_loop_cons by done.
  all: destruct (dispatch cfg _ st) as [st1| |] eqn:Hd; try done;
    try (by apply dispatch_not_finished in Hd).
  all: intros Hrest; apply IH in Hrest as (before & rest' & -> & Hrun).
  all: eexists (_ :: before), rest'; split; [done|].
  all: rewrite start_loop_cons by done; by rewrite Hd.
Qed.

Lemma slots_paired_cons cfg event rest st :
  event ≠ EvTerminated →
  slots_paired cfg (event :: rest) st
  = finds_slot event st
    && match dispatch cfg event st with
       | Running st' => slots_paired cfg rest st'
       | _ => true
       end.
Proof. by destruct event. Qed.

Lemma start_loop_queued cfg events st0 st :
  0 ≤ queued_processes st0 →
  after_pass (start_loop cfg events st0) st → 0 ≤ queued_processes st.
Proof.
  intros Hq0.
  assert (∀ evs st', start_loop cfg evs st0 = Running st' →
            0 ≤ queued_processes st') as Hrun.
  { intros evs st' Hrun.
    apply (start_loop_running_inv (λ _ s, 0 ≤ queued_processes s) cfg)
      with (events := evs) (hist := []) (st := st0); [|done..].
    intros _ event s s' Hs Hd. by eapply dispatch_queued. }
  intros [Hr|Hf]; [by eapply Hrun|].
  apply start_loop_finished in Hf as (before & rest & _ & Hr). by eapply Hrun.
Qed.

Lemma start_loop_slot_invariant cfg events st0 st :
  slot_invariant cfg st0 → slots_paired cfg events st0 = true →
  after_pass (start_loop cfg events st0) st → slot_invariant cfg st.
Proof.
  revert st0. induction events as [|event rest IH]; intros st0 Hinv Hpaired.
  - intros [[= <-]|[=]]. done.
  - destruct event; [by intros [[=]|[= <-]]|..].
    all: rewrite slots_paired_cons in Hpaired by done.
    all: rewrite start_loop_cons by done.
    all: apply andb_prop in Hpaired as [Hslot Hrest].
    all: destruct (dispatch cfg _ st0) as [st1|st1|e st1] eqn:Hd;
      [|by apply dispatch_not_finished in Hd|by intros [[=]|[=]]].
    all: apply IH; [|done]; by eapply dispatch_slot_invariant.
Qed.

(** A [local_game_done] takes exactly one off [busy_processes], whatever
    the admission pass after it does. *)
Lemma dispatch_local_game_done cfg st :
  busy_processes (state_of (dispatch cfg EvLocalGameDone st))
  = busy_processes st - 1.
Proof.
  unfold dispatch, drain; simpl.
  match goal with |- context [drain_queue ?c ?b ?p ?q ?n ?w] =>
    destruct (drain_queue c b p q n w) as [st'|st'|e st'] eqn:Hd end; simpl.
  - by apply drain_queue_running in Hd as (-> & _).
  - by apply drain_queue_not_finished in Hd.
  - by apply drain_queue_raised in Hd as (-> & _).
Qed.

(** An admission pass accepts only below the capacity. *)
Lemma drain_bound cfg st st' :
  drain cfg st = Running st' →
  busy_processes st' = busy_processes st
  ∧ queued_processes st ≤ queued_processes st'
  ∧ queued_processes st' + busy_processes st'
    ≤ Z.max (max_games cfg) (queued_processes st + busy_processes st).
Proof.
  unfold drain. intros Hd.
  apply drain_queue_running in Hd as (-> & _ & ? & _ & ? & _). lia.
Qed.

(** C1, as the code has it.  Wherever the loop of [start] waits after an
    admission pass: [queued_processes] is not negative; a
    [local_game_done] took exactly one off [busy_processes]; the pass did
    not change [busy_processes] and accepted challenges only while
    [queued_processes + busy_processes] was below [max_games]; and when
    every [gameStart] found a queued slot and every [local_game_done] a
    busy worker, and the capacity is not negative, both counters are at
    least zero and their sum is at most [max_games]. *)
Theorem slot_accounting cfg (events : list (Event Challenge)) (w : World) st :
  after_pass (start_loop cfg events (init w)) st →
  0 ≤ queued_processes st
  ∧ (∀ st0, busy_processes (state_of (dispatch cfg EvLocalGameDone st0))
            = busy_processes st0 - 1)
  ∧ (∀ st0 st1, drain cfg st0 = Running st1 →
       busy_processes st1 = busy_processes st0
       ∧ queued_processes st0 ≤ queued_processes st1
       ∧ queued_processes st1 + busy_processes st1
         ≤ Z.max (max_games cfg) (queued_processes st0 + busy_processes st0))
  ∧ (0 ≤ max_games cfg → slots_paired cfg events (init w) = true →
     slot_invariant cfg st).
Proof.
  intros Hafter. split; [|split; [|split]].
  - by apply (start_loop_queued cfg events (init w)).
  - apply dispatch_local_game_done.
  - apply drain_bound.
  - intros Hcap Hpaired.
    apply (start_loop_slot_invariant cfg events (init w)); [|done..].
    unfold slot_invariant; simpl. lia.
Qed.

(** *** The challenge queue *)

Lemma supported_challenges_app cfg (l k : list (Event Challenge)) :
  supported_challenges cfg (l ++ k)
  = supported_challenges cfg l ++ supported_challenges cfg k.
Proof.
  induction l as [|event l IH]; simpl; [done|].
  destruct event; try done. destruct (is_supported _ _); simpl; by rewrite IH.
Qed.

(** The queue a handler leaves: an unsupported challenge and the events of
    the other types leave it alone; a supported challenge goes to its end,
    and the best-first policy sorts the whole. *)
Lemma handle_event_queue cfg event st st' :
  handle_event cfg event st = Running st' →
  challenge_queue st'
  = match supported_challenges cfg [event] with
    | [] => challenge_queue st
    | arrived =>
        if sort_best cfg
        then sort_by_key (λ c, - score c) (challenge_queue st ++ arrived)
        else challenge_queue st ++ arrived
    end.
Proof.
  destruct event; simpl; try (by intros [= <-]).
  destruct (is_supported _ _); [by intros [= <-]|].
  destruct (decline_challenge _ _) as [w [[]|e]]; [by intros [= <-]|].
  destruct e; try done. case_bool_decide; [done|]. by intros [= <-].
Qed.

Lemma handle_event_queue_perm cfg event st st' :
  handle_event cfg event st = Running st' →
  challenge_queue st' ≡ₚ challenge_queue st ++ supported_challenges cfg [event].
Proof.
  intros Hh. rewrite (handle_event_queue _ _ _ _ Hh).
  destruct (supported_challenges cfg [event]) as [|c l]; [by rewrite app_nil_r|].
  destruct (sort_best cfg); [|done]. apply sort_by_key_perm.
Qed.

(** The queue after an iteration is the end of the queue its handler left. *)
Lemma dispatch_queue cfg event st st' :
  dispatch cfg event st = Running st' →
  ∃ st1, handle_event cfg event st = Running st1
         ∧ challenge_queue st' `suffix_of` challenge_queue st1.
Proof.
  unfold dispatch, drain.
  destruct (handle_event cfg event st) as [st1| |] eqn:Hh; try done.
  intros Hd. exists st1. split; [done|].
  by apply drain_queue_running in Hd as (_ & _ & _ & ? & _).
Qed.

(** Every entry of the queue is a supported challenge that arrived, and no
    arrival is in the queue more often than it arrived. *)
Lemma start_loop_queue_arrivals cfg events w st :
  after_pass (start_loop cfg events (init w)) st →
  challenge_queue st ⊆+ supported_challenges cfg events.
Proof.
  assert (∀ evs st', start_loop cfg evs (init w) = Running st' →
            challenge_queue st' ⊆+ supported_challenges cfg evs) as Hrun.
  { intros evs st' Hrun.
    apply (start_loop_running_inv
             (λ hist s, challenge_queue s ⊆+ supported_challenges cfg hist) cfg)
      with (events := evs) (hist := []) (st := init w); [|done..].
    intros hist event s s' Hs Hd.
    apply dispatch_queue in Hd as (s1 & Hh & Hsuffix).
    rewrite supported_challenges_app.
    etrans; [by apply suffix_submseteq|].
    rewrite (handle_event_queue_perm _ _ _ _ Hh).
    by apply submseteq_skips_r. }
  intros [Hr|Hf]; [by apply Hrun|].
  apply start_loop_finished in Hf as (before & rest & -> & Hr).
  rewrite supported_challenges_app. apply submseteq_inserts_r. by apply Hrun.
Qed.

(** C3, as the code has it.  The dispatcher appends every supported
    challenge and compares no identifiers: the queue holds arrived
    supported challenges only, each at most as often as it arrived, so it
    has no two entries with one identifier when the supported challenges
    of the events have pairwise distinct identifiers. *)
Theorem queue_identifiers_distinct cfg (events : list (Event Challenge))
    (w : World) st :
  after_pass (start_loop cfg events (init w)) st →
  NoDup (challenge_id <$> supported_challenges cfg events) →
  challenge_queue st ⊆+ supported_challenges cfg events
  ∧ NoDup (challenge_id <$> challenge_queue st).
Proof.
  intros Hafter Hdistinct.
  pose proof (start_loop_queue_arrivals _ _ _ _ Hafter) as Hsub.
  split; [done|].
  eapply submseteq_NoDup; [|done]. by apply fmap_submseteq.
Qed.

(** C7, as the code has it.  Under the best-first policy, wherever the
    loop waits the queue is sorted by score, highest first and ties
    allowed: no entry is followed by one of a higher score.  The entries
    of one score are the last supported challenges of that score that
    arrived, in the order of their arrival. *)
Theorem best_first_queue_sorted cfg (events : list (Event Challenge))
    (w : World) st :
  sort_best cfg = true →
  start_loop cfg events (init w) = Running st →
  Sorted (λ a b, score b ≤ score a) (challenge_queue st)
  ∧ ∀ s, filter (λ c, score c = s) (challenge_queue st)
         `suffix_of` filter (λ c, score c = s) (supported_challenges cfg events).
Proof.
  intros Hbest Hrun.
  apply (start_loop_running_inv
           (λ hist s,
              Sorted (λ a b, score b ≤ score a) (challenge_queue s)
              ∧ ∀ k, filter (λ c, score c = k) (challenge_queue s)
                     `suffix_of` filter (λ c, score c = k)
                                   (supported_challenges cfg hist)) cfg)
    with (events := events) (hist := []) (st := init w); [| |done].
  - intros hist event s s' [Hsorted Hstable] Hd.
    apply dispatch_queue in Hd as (s1 & Hh & Hsuffix).
    apply handle_event_queue in Hh. rewrite Hbest in Hh.
    rewrite supported_challenges_app.
    assert (Sorted (λ a b, score b ≤ score a) (challenge_queue s1)
            ∧ ∀ k, filter (λ c, score c = k) (challenge_queue s1)
                   = filter (λ c, score c = k)
                       (challenge_queue s ++ supported_challenges cfg [event]))
      as [Hsorted1 Hstable1].
    { destruct (supported_challenges cfg [event]) as [|c l] eqn:Harr.
      - rewrite Hh, app_nil_r. done.
      - rewrite Hh. split.
        + eapply Sorted_weaken; [|apply sort_by_key_sorted].
          unfold key_le. intros a b. lia.
        + intros k.
          rewrite (list_filter_iff (λ c, score c = k) (λ c, - score c = - k))
            by (intros x; lia).
          rewrite sort_by_key_stable.
          apply list_filter_iff. intros x; lia. }
    split.
    + by eapply Sorted_suffix.
    + intros k. etrans; [by apply filter_suffix|].
      rewrite Hstable1, !filter_app. by apply suffix_app.
  - simpl. split; [constructor|]. intros k. done.
Qed.

(** *** Errors of accept and decline *)

Lemma drain_cons cfg st chlng rest :
  challenge_queue st = chlng :: rest →
  queued_processes st + busy_processes st < max_games cfg →
  drain cfg st
  = match accept_challenge (li st) (challenge_id chlng) with
    | (w', Ok _) =>
        drain cfg {| busy_processes := busy_processes st;
                     queued_processes := queued_processes st + 1;
                     challenge_queue := rest; pool := pool st; li := w' |}
    | (w', Raise (HTTPError status_code)) =>
        if bool_decide (status_code = 404)
        then drain cfg {| busy_processes := busy_processes st;
                          queued_processes := queued_processes st;
                          challenge_queue := rest; pool := pool st; li := w' |}
        else Raised (HTTPError status_code)
               {| busy_processes := busy_processes st;
                  queued_processes := queued_processes st;
                  challenge_queue := rest; pool := pool st; li := w' |}
    | (w', Raise e) =>
        Raised e {| busy_processes := busy_processes st;
                    queued_processes := queued_processes st;
                    challenge_queue := rest; pool := pool st; li := w' |}
    end.
Proof.
  intros Hq Hroom. unfold drain. rewrite Hq. simpl.
  rewrite bool_decide_eq_true_2 by done.
  destruct (accept_challenge _ _) as [w' [[]|e]]; [done|].
  by destruct e.
Qed.

(** C8.  An [HTTPError] of [accept_challenge]: with status 404 the loop
    goes on from the state with the challenge popped and
    [queued_processes] as it was; with any other status the error leaves
    the admission pass.  An [HTTPError] of [decline_challenge]: with
    status 404 the handler ends normally, with any other status the error
    leaves the handler.  An error that leaves the handler or the admission
    pass leaves the loop. *)
Theorem not_found_swallowed_other_errors_fatal cfg st chlng rest status w' :
  (challenge_queue st = chlng :: rest →
   queued_processes st + busy_processes st < max_games cfg →
   accept_challenge (li st) (challenge_id chlng) = (w', Raise (HTTPError status)) →
   let popped := {| busy_processes := busy_processes st;
                    queued_processes := queued_processes st;
                    challenge_queue := rest; pool := pool st; li := w' |} in
   (status = 404 → drain cfg st = drain cfg popped)
   ∧ (status ≠ 404 → drain cfg st = Raised (HTTPError status) popped))
  ∧ (is_supported chlng cfg = false →
     decline_challenge (li st) (challenge_id chlng) = (w', Raise (HTTPError status)) →
     (status = 404 →
      handle_event cfg (EvChallenge chlng) st = Running (set_li w' st))
     ∧ (status ≠ 404 →
        handle_event cfg (EvChallenge chlng) st
        = Raised (HTTPError status) (set_li w' st)))
  ∧ (∀ event events e st',
       event ≠ EvTerminated →
       handle_event cfg event st = Raised e st'
       ∨ (∃ st1, handle_event cfg event st = Running st1
                 ∧ drain cfg st1 = Raised e st') →
       start_loop cfg (event :: events) st = Raised e st').
Proof.
  split; [|split].
  - intros Hq Hroom Haccept popped.
    rewrite (drain_cons _ _ _ _ Hq Hroom), Haccept.
    split; intros Hs.
    + by rewrite bool_decide_eq_true_2.
    + by rewrite bool_decide_eq_false_2.
  - intros Hunsupported Hdecline. simpl. rewrite Hunsupported, Hdecline.
    split; intros Hs.
    + by rewrite bool_decide_eq_false_2 by (intros ?; done).
    + by rewrite bool_decide_eq_true_2.
  - intros event events e st' Hev Hraised.
    rewrite start_loop_cons by done. unfold dispatch.
    destruct Hraised as [->|(st1 & -> & ->)]; done.
Qed.

(** With ["sort_by": "first"] a supported challenge goes to the end of the
    queue and nothing is sorted. *)
Lemma first_come_appends cfg chlng st :
  sort_best cfg = false → is_supported chlng cfg = true →
  handle_event cfg (EvChallenge chlng) st
  = Running {| busy_processes := busy_processes st;
               queued_processes := queued_processes st;
               challenge_queue := challenge_queue st ++ [chlng];
               pool := pool st; li := li st |}.
Proof. intros Hfirst Hsup. simpl. by rewrite Hsup, Hfirst. Qed.

End DispatcherFacts.

(** ** The backoff wrapper *)

Section BackoffFacts.
Context {S : Type} (target : S → Result unit * S).

(** A call that returns is not repeated. *)
Lemma backoff_returns retries s r s' :
  target s = (Ok r, s') → backoff retries target s = (Ok r, s').
Proof. intros Ht. destruct retries; simpl; by rewrite Ht. Qed.

(** A final exception is raised again at once. *)
Lemma backoff_gives_up retries s e s' :
  target s = (Raise e, s') → is_final e = true →
  backoff retries target s = (Raise e, s').
Proof. intros Ht Hf. destruct retries; simpl; by rewrite Ht, Hf. Qed.

(** Any other exception leads to another call, while the budget lasts. *)
Lemma backoff_retries retries s e s' :
  target s = (Raise e, s') → is_final e = false →
  backoff (Datatypes.S retries) target s = backoff retries target s'.
Proof. intros Ht Hf. simpl. by rewrite Ht, Hf. Qed.

Lemma backoff_exhausted s e s' :
  target s = (Raise e, s') → backoff 0 target s = (Raise e, s').
Proof. intros Ht. simpl. rewrite Ht. by destruct (is_final e). Qed.

(** What every call keeps, the wrapped call keeps. *)
Lemma backoff_preserves (R : S → S → Prop) :
  (∀ a b c, R a b → R b c → R a c) →
  (∀ s r s', target s = (r, s') → R s s') →
  ∀ retries s r s', backoff retries target s = (r, s') → R s s'.
Proof.
  intros Htrans Hstep. induction retries as [|n IH]; intros s r s'; simpl.
  - destruct (target s) as [[u|e] s1] eqn:Ht.
    + intros [= <- <-]. by eapply Hstep.
    + destruct (is_final e); intros [= <- <-]; by eapply Hstep.
  - destruct (target s) as [[u|e] s1] eqn:Ht.
    + intros [= <- <-]. by eapply Hstep.
    + destruct (is_final e).
      * intros [= <- <-]. by eapply Hstep.
      * intros Hrest. eapply Htrans; [by eapply Hstep|by eapply IH].
Qed.

End BackoffFacts.

(** ** The control-stream consumer *)

Section ConsumerFacts.
Context {Challenge World : Type} `{!ControlTransport Challenge World}.

Lemma forward_lines_ok (lines : list (ControlLine Challenge)) queue queue' :
  forward_lines lines queue = (Ok (), queue') →
  queue' = queue ++ events_of lines.
Proof.
  revert queue. induction lines as [|line rest IH]; intros queue; simpl.
  - intros [= <-]. by rewrite app_nil_r.
  - destruct line; [| |done]; intros Hf; apply IH in Hf as ->;
      by rewrite <- app_assoc.
Qed.

(** One call on a stream whose lines all decode: the way the stream stops
    decides what the call does after forwarding the lines. *)
Lemma watch_control_stream_once_spec (s : @Feed Challenge World) w response queue' :
  get_event_stream (feed_world s) = (w, Ok response) →
  forward_lines (control_lines response) (control_queue s) = (Ok (), queue') →
  watch_control_stream_once s
  = match control_end response with
    | Exhausted => (Ok (), {| control_queue := queue'; feed_world := w |})
    | Broken e =>
        if is_connection_error e
        then (Ok (), {| control_queue := queue' ++ [EvTerminated]; feed_world := w |})
        else (Raise e, {| control_queue := queue'; feed_world := w |})
    end.
Proof.
  intros Hget Hfwd. unfold watch_control_stream_once, read_stream.
  rewrite Hget, Hfwd. by destruct (control_end response).
Qed.

End ConsumerFacts.

(** ** The game worker *)

Section WorkerFacts.
Context {Challenge World Board Move Engine : Type}.
Context `{!Rules Board Move, !EngineHandle Engine Board Move}.
Context `{!WorkerTransport World Move, !WorkerEnv World Engine}.

Implicit Types (st : @Worker World Board Move Engine).
Implicit Types (s : @Session Challenge World Board Move).

(** A call of [play_game] puts nothing on the control queue, or one
    [local_game_done]. *)
Lemma play_game_once_queue config game_id s r s' :
  play_game_once config game_id s = (r, s') →
  session_queue s' = session_queue s
  ∨ session_queue s' = session_queue s ++ [EvLocalGameDone].
Proof.
  unfold play_game_once.
  destruct (get_game_stream _ _) as [w [response|e]]; [|intros [= <- <-]; by left].
  destruct (snapshot response) as [the_game|e]; [|intros [= <- <-]; by left].
  destruct (setup_board the_game) as [the_board|e]; [|intros [= <- <-]; by left].
  destruct (engine_factory w) as [w1 the_engine].
  destruct (try_body _ _ _) as [r1 st1].
  destruct (except_clauses r1 st1) as [r2 st2].
  intros [= <- <-]. by right.
Qed.

(** A call that gets as far as the [try] puts exactly one. *)
Lemma play_game_once_reports config game_id s w response the_game
    (the_board : Board) r s' :
  get_game_stream (session_world s) game_id = (w, Ok response) →
  snapshot response = Ok the_game →
  setup_board the_game = Ok the_board →
  play_game_once config game_id s = (r, s') →
  session_queue s' = session_queue s ++ [EvLocalGameDone].
Proof.
  unfold play_game_once. intros -> -> ->.
  destruct (engine_factory w) as [w1 the_engine].
  destruct (try_body _ _ _) as [r1 st1].
  destruct (except_clauses r1 st1) as [r2 st2].
  by intros [= <- <-].
Qed.

(** A call that fails before the [try] puts none. *)
Lemma play_game_once_silent config game_id s w e :
  get_game_stream (session_world s) game_id = (w, Raise e) →
  play_game_once config game_id s
  = (Raise e, {| session_queue := session_queue s; session_world := w;
                 session_calls := session_calls s |}).
Proof. unfold play_game_once. by intros ->. Qed.

(** The wrapped worker puts [local_game_done] events on the control queue
    and nothing else. *)
Lemma play_game_queue retries config game_id s r s' :
  play_game retries config game_id s = (r, s') →
  ∃ n, session_queue s' = session_queue s ++ replicate n EvLocalGameDone.
Proof.
  unfold play_game. intros Hp.
  apply (backoff_preserves (play_game_once config game_id)
           (λ a b : @Session Challenge World Board Move,
              ∃ n, session_queue b = session_queue a ++ replicate n EvLocalGameDone))
    in Hp; [done|..].
  - intros a b c [n Hab] [m Hbc]. exists (n + m)%nat.
    by rewrite Hbc, Hab, <- app_assoc, replicate_add.
  - intros a r0 b Hab. apply play_game_once_queue in Hab as [Hq|Hq].
    + exists 0%nat. simpl. by rewrite app_nil_r.
    + by exists 1%nat.
Qed.

(** *** The [gameState] branch *)

Lemma move_and_submit_calls clock st :
  calls (move_and_submit clock st).2
  = calls st ++ [CallEngineMove (board st) clock;
                 CallMakeMove (model.id (game st))
                   (engine_move (engine st) (board st) clock).2]
  ∧ board (move_and_submit clock st).2 = board st.
Proof.
  unfold move_and_submit.
  destruct (engine_move (engine st) (board st) clock) as [engine' best_move]; simpl.
  destruct (make_move (world st) (model.id (game st)) best_move) as [w r]; simpl.
  by rewrite <- app_assoc.
Qed.

(** C5.  A [gameState] update whose newest move the board takes: when the
    new board is not game-over and [is_engine_move] holds for the move
    list of the update, the worker asks the engine once, for that board
    and the clock fields of the update, and submits the answer once; in
    every other case it asks and submits nothing. *)
Theorem engine_asked_once_on_its_turn config upd st newest (board' : Board) :
  last (model.moves upd) = Some newest →
  update_board (board st) newest = Ok board' →
  let engine_turn :=
    negb (is_game_over board') && is_engine_move (game st) (model.moves upd) in
  let best_move := (engine_move (engine st) board' (clock_of upd)).2 in
  let new_calls :=
    if engine_turn
    then [CallEngineMove board' (clock_of upd);
          CallMakeMove (model.id (game st)) best_move]
    else [] in
  ∃ r st',
    handle_chunk config (GJson (GameStateUpd upd)) st = (r, st')
    ∧ board st' = board'
    ∧ calls st' = calls st ++ new_calls
    ∧ engine_requests new_calls = (if engine_turn then 1 else 0)%nat
    ∧ move_submissions new_calls = (if engine_turn then 1 else 0)%nat
    ∧ r = if engine_turn
          then (make_move (world st) (model.id (game st)) best_move).2
          else Ok ().
Proof.
  intros Hlast Hboard engine_turn best_move new_calls.
  subst engine_turn best_move new_calls.
  unfold handle_chunk, on_game_state. rewrite Hlast. simpl. rewrite Hboard.
  change (is_engine_move (model.set_state upd (game st)) (model.moves upd))
    with (is_engine_move (game st) (model.moves upd)).
  destruct (negb (is_game_over board') && is_engine_move (game st) (model.moves upd)).
  - unfold move_and_submit. simpl.
    destruct (engine_move (engine st) board' (clock_of upd)) as [engine' best_move].
    simpl.
    destruct (make_move (world st) (model.id (game st)) best_move) as [w [[]|e]];
      simpl; (eexists _, _; split; [done|]; simpl; rewrite <- app_assoc;
              by repeat split).
  - eexists _, _. split; [done|]. simpl. rewrite app_nil_r. by repeat split.
Qed.

(** Whenever the [gameState] branch ends normally, the board has taken
    the newest move of the update. *)
Lemma on_game_state_board config upd st st' :
  on_game_state config upd st = (Ok (), st') →
  advance (board st) (model.moves upd) = Ok (board st').
Proof.
  unfold on_game_state, advance.
  destruct (last (model.moves upd)) as [newest|]; [|done]. simpl.
  destruct (update_board (board st) newest) as [board'|e]; [|done].
  destruct (negb (is_game_over board') && _).
  - match goal with |- context [move_and_submit ?c ?s] =>
      pose proof (move_and_submit_calls c s) as [_ Hb];
      destruct (move_and_submit c s) as [[u|e] st3] end; [|done].
    simpl in Hb. intros [= <-]. simpl. by rewrite Hb.
  - by intros [= <-].
Qed.

(** *** The [ping] branch *)

(** C10.  A blank line runs the [ping] branch and nothing else: the game,
    the board and the engine stay as they are, and the one call it can
    make is [li.abort], made exactly when [game.should_abort_now()]
    holds; so a stream of blank lines is enough for an abort. *)
Theorem blank_line_checks_deadline config st :
  let overdue := should_abort_now (world st) (game st) in
  ∃ r st',
    handle_chunk config GBlank st = (r, st')
    ∧ game st' = game st ∧ board st' = board st ∧ engine st' = engine st
    ∧ calls st' = calls st ++ (if overdue then [CallAbort (model.id (game st))] else [])
    ∧ abort_requests (calls st')
      = (abort_requests (calls st) + if overdue then 1 else 0)%nat
    ∧ engine_requests (calls st') = engine_requests (calls st)
    ∧ move_submissions (calls st') = move_submissions (calls st)
    ∧ (r, world st')
      = if overdue
        then ((abort (world st) (model.id (game st))).2,
              (abort (world st) (model.id (game st))).1)
        else (Ok (), world st).
Proof.
  intros overdue. subst overdue. unfold handle_chunk, on_ping.
  destruct (should_abort_now (world st) (game st)).
  - destruct (abort (world st) (model.id (game st))) as [w r].
    eexists _, _. split; [done|]. simpl.
    unfold abort_requests, engine_requests, move_submissions, count_calls.
    rewrite !List.filter_app, !length_app. simpl.
    repeat split; try done; lia.
  - eexists _, _. split; [done|]. rewrite app_nil_r.
    repeat split; try done; lia.
Qed.

(** *** Replaying moves *)

Lemma advance_all_raise e (updates : list (list string)) :
  advance_all (Raise e : Result Board) updates = Raise e.
Proof. by destruct updates. Qed.

Lemma replay_app (start_board : Board) (l1 l2 : list string) :
  replay start_board (l1 ++ l2)
  = match replay start_board l1 with
    | Ok board' => replay board' l2
    | Raise e => Raise e
    end.
Proof.
  revert start_board. induction l1 as [|move l1 IH]; intros start_board; simpl; [done|].
  by destruct (update_board start_board move).
Qed.

Lemma advance_newest (start_board : Board) (seen : list string) move :
  advance start_board (seen ++ [move]) = update_board start_board move.
Proof. unfold advance. by rewrite last_snoc. Qed.

Lemma advance_all_updates (next seen : list string) (start_board : Result Board) :
  advance_all start_board (updates_after seen next)
  = match start_board with
    | Ok board0 => replay board0 next
    | Raise e => Raise e
    end.
Proof.
  revert seen start_board.
  induction next as [|move rest IH]; intros seen start_board; simpl.
  - by destruct start_board.
  - destruct start_board as [board0|e]; [|done].
    by rewrite IH, advance_newest.
Qed.

(** A snapshot with more moves continues the replay of a snapshot with
    fewer. *)
Lemma setup_board_more_moves (the_game : model.Game) (seen next : list string) :
  (setup_board (with_moves (seen ++ next) the_game) : Result Board)
  = match setup_board (with_moves seen the_game) with
    | Ok board0 => replay board0 next
    | Raise e => Raise e
    end.
Proof.
  unfold setup_board. simpl.
  match goal with |- context [match ?i with Ok _ => replay _ seen | _ => _ end] =>
    destruct i as [board0|e] end; [|done].
  apply replay_app.
Qed.

(** C6.  From a snapshot with the moves [seen], the board that
    [setup_board] builds and that each following [gameState] update
    advances by its newest move is the board that [setup_board] builds
    from a snapshot with all the moves; the two also fail alike. *)
Theorem incremental_replay_agrees (the_game : model.Game) (seen next : list string) :
  advance_all (setup_board (with_moves seen the_game)) (updates_after seen next)
  = (setup_board (with_moves (seen ++ next) the_game) : Result Board).
Proof.
  rewrite advance_all_updates, setup_board_more_moves.
  destruct (setup_board (with_moves seen the_game)) as [board0|e]; reflexivity.
Qed.

(** The loop over [gameState] updates that ends normally has advanced the
    board by the newest move of each update, in order. *)
Lemma handle_chunks_board config (updates : list model.GameState) st st' :
  handle_chunks config ((λ upd, GJson (GameStateUpd upd)) <$> updates) st
  = (Ok (), st') →
  advance_all (Ok (board st)) (model.moves <$> updates) = Ok (board st').
Proof.
  revert st. induction updates as [|upd rest IH]; intros st; simpl.
  - by intros [= <-].
  - destruct (on_game_state config upd st) as [[[]|e] st1] eqn:Hupd; [|done].
    intros Hrest. apply on_game_state_board in Hupd. rewrite Hupd.
    by apply IH.
Qed.

(** So the board of a worker whose snapshot had the moves [seen], after
    the updates for the moves [next], is the board of a snapshot with all
    the moves. *)
Lemma worker_board_is_full_replay config (the_game : model.Game)
    (seen next : list string) (updates : list model.GameState) st st' :
  setup_board (with_moves seen the_game) = Ok (board st) →
  model.moves <$> updates = updates_after seen next →
  handle_chunks config ((λ upd, GJson (GameStateUpd upd)) <$> updates) st
  = (Ok (), st') →
  setup_board (with_moves (seen ++ next) the_game) = Ok (board st').
Proof.
  intros Hsetup Hupdates Hloop. apply handle_chunks_board in Hloop.
  rewrite Hupdates, advance_all_updates in Hloop.
  by rewrite setup_board_more_moves, Hsetup.
Qed.

End WorkerFacts.

(** ** Who puts [terminated] on the control queue *)

Section TerminatedFacts.
Context {Challenge World GameWorld Board Move Engine : Type}.
Context `{!ControlTransport Challenge World}.
Context `{!Rules Board Move, !EngineHandle Engine Board Move}.
Context `{!WorkerTransport GameWorld Move, !WorkerEnv GameWorld Engine}.

Lemma final_is_no_connection_error e :
  is_final e = true → is_connection_error e = false.
Proof. by destruct e. Qed.

(** C4, as the code has it.  On a stream whose lines all decode, the
    consumer forwards the lines and then: puts one [terminated] on the
    queue and returns when the stream raises one of the four connection
    errors; returns without a [terminated] when the stream ends normally;
    raises, without a [terminated], when the stream raises a final
    [HTTPError].  The game worker, the other writer of the control queue,
    puts [local_game_done] events only. *)
Theorem terminated_on_connection_error (s : @Feed Challenge World) w response queue' :
  get_event_stream (feed_world s) = (w, Ok response) →
  forward_lines (control_lines response) (control_queue s) = (Ok (), queue') →
  queue' = control_queue s ++ events_of (control_lines response)
  ∧ (∀ e retries,
       control_end response = Broken e → is_connection_error e = true →
       watch_control_stream retries s
       = (Ok (), {| control_queue := queue' ++ [EvTerminated]; feed_world := w |}))
  ∧ (∀ retries,
       control_end response = Exhausted →
       watch_control_stream retries s
       = (Ok (), {| control_queue := queue'; feed_world := w |}))
  ∧ (∀ e retries,
       control_end response = Broken e → is_final e = true →
       watch_control_stream retries s
       = (Raise e, {| control_queue := queue'; feed_world := w |}))
  ∧ (∀ retries config game_id
       (session session' : @Session Challenge GameWorld Board Move) r,
       play_game retries config game_id session = (r, session') →
       ∃ n, session_queue session'
            = session_queue session ++ replicate n EvLocalGameDone).
Proof.
  intros Hget Hfwd.
  pose proof (watch_control_stream_once_spec s w response queue' Hget Hfwd) as Honce.
  split; [by apply forward_lines_ok|]. split; [|split; [|split]].
  - intros e retries Hend Hconn. rewrite Hend, Hconn in Honce.
    by apply backoff_returns.
  - intros retries Hend. rewrite Hend in Honce. by apply backoff_returns.
  - intros e retries Hend Hfinal. rewrite Hend in Honce.
    rewrite (final_is_no_connection_error e Hfinal) in Honce.
    by apply backoff_gives_up.
  - intros retries config game_id session session' r Hplay.
    by eapply play_game_queue.
Qed.

End TerminatedFacts.

(** ** The entry point *)

Section ServeLichessFacts.
Context {World : Type} `{!AccountTransport World}.

Lemma serve_lichess_config (w w' : World) the_concurrency the_time_controls
    the_modes verbose upgrade the_url user_profile config :
  serve_lichess w the_concurrency the_time_controls the_modes verbose upgrade the_url
  = (w', Ok (Some (user_profile, config))) →
  config = CONFIG the_url the_concurrency the_time_controls the_modes.
Proof.
  unfold serve_lichess.
  destruct (get_profile w) as [w1 [profile|e]]; [|done].
  destruct (upgrade && _).
  - destruct (upgrade_account w1) as [w2 [[]|e]]; [|done..].
    by intros [= _ _ <-].
  - case_bool_decide; [|done]. by intros [= _ _ <-].
Qed.

(** C9.  Whatever its arguments, the configuration that [serve_lichess]
    hands to [start] is the [CONFIG] literal: [sort_by] is ["first"],
    [variants] is [["standard"]], [accept_bot] is true, the increments are
    0 and 180 and [abort_time] (a key of [CONFIG] itself) is 20, while
    [concurrency], [time_controls] and [modes] are the arguments; so the
    dispatcher does not take the best-first branch and appends a supported
    challenge to the queue. *)
Theorem serve_lichess_policy (w w' : World) the_concurrency the_time_controls
    the_modes verbose upgrade the_url user_profile config :
  serve_lichess w the_concurrency the_time_controls the_modes verbose upgrade the_url
  = (w', Ok (Some (user_profile, config))) →
  (sort_by (challenge config) = Some "first"%string
   ∧ variants (challenge config) = ["standard"%string]
   ∧ accept_bot (challenge config) = true
   ∧ min_increment (challenge config) = 0
   ∧ max_increment (challenge config) = 180
   ∧ abort_time config = Some 20)
  ∧ (concurrency (challenge config) = Some the_concurrency
     ∧ time_controls (challenge config) = the_time_controls
     ∧ modes (challenge config) = the_modes
     ∧ url config = the_url)
  ∧ sort_best (challenge config) = false
  ∧ ∀ (Challenge Server : Type) (M : ChallengeModel Challenge)
      (T : DispatcherTransport Server) (chlng : Challenge)
      (st : @Dispatcher Challenge Server),
      is_supported chlng (challenge config) = true →
      ∃ st', handle_event (challenge config) (EvChallenge chlng) st = Running st'
             ∧ challenge_queue st' = challenge_queue st ++ [chlng].
Proof.
  intros Hserve. apply serve_lichess_config in Hserve as ->.
  repeat split.
  intros Challenge Server M T chlng st Hsup.
  eexists. split; [by apply first_come_appends|done].
Qed.

End ServeLichessFacts.

(** ** The dispatcher on concrete events *)

(** A run in which every event finds its slot: a challenge is accepted,
    its game starts and ends. *)
Lemma slot_accounting_witness :
  slot_invariant (best_first 1)
    {| busy_processes := 0; queued_processes := 0;
       challenge_queue := ([] : list Offer);
       pool := ["g"%string]; li := () |}.
Proof.
  refine (proj2 (proj2 (proj2
    (slot_accounting (best_first 1)
       [EvChallenge (offer "a" 5); EvGameStart "g"; EvLocalGameDone] ()
       _ _))) _ _).
  - left. reflexivity.
  - vm_compute. discriminate.
  - reflexivity.
Defined.

(** C1 as stated fails.  With the default capacity of one game, two
    [gameStart] events that find no queued slot leave two busy workers,
    and a game that is reported done twice leaves [busy_processes] at -1;
    both states are those after an admission pass. *)
Lemma slot_invariant_violated :
  (start_loop (challenge default_config)
     [EvGameStart "g1"; EvGameStart "g2"] (init ())
   = Running {| busy_processes := 2; queued_processes := 0;
                challenge_queue := ([] : list Offer);
                pool := ["g1"%string; "g2"%string]; li := () |}
   ∧ ¬ slot_invariant (challenge default_config)
         {| busy_processes := 2; queued_processes := 0;
            challenge_queue := ([] : list Offer);
            pool := ["g1"%string; "g2"%string]; li := () |})
  ∧ (start_loop (challenge default_config)
       [EvGameStart "g"; EvLocalGameDone; EvLocalGameDone] (init ())
     = Running {| busy_processes := -1; queued_processes := 0;
                  challenge_queue := ([] : list Offer);
                  pool := ["g"%string]; li := () |}
     ∧ ¬ slot_invariant (challenge default_config)
           {| busy_processes := -1; queued_processes := 0;
              challenge_queue := ([] : list Offer);
              pool := ["g"%string]; li := () |}).
Proof.
  repeat split; try reflexivity.
  - intros (_ & _ & Hsum). vm_compute in Hsum. by apply Hsum.
  - intros (_ & Hbusy & _). vm_compute in Hbusy. by apply Hbusy.
Qed.

(** C3 as stated fails.  With the default configuration the first
    challenge is accepted at once; the second waits in the queue, and when
    the server delivers it again the queue holds it twice. *)
Lemma queue_holds_duplicate :
  start_loop (challenge default_config)
    [EvChallenge (offer "a" 1500); EvChallenge (offer "b" 1500);
     EvChallenge (offer "b" 1500)] (init ())
  = Running {| busy_processes := 0; queued_processes := 1;
               challenge_queue := [offer "b" 1500; offer "b" 1500];
               pool := []; li := () |}
  ∧ ¬ NoDup (challenge_id <$> [offer "b" 1500; offer "b" 1500]).
Proof.
  split; [reflexivity|].
  intros Hnodup. apply NoDup_cons_1_1 in Hnodup. apply Hnodup. by left.
Qed.

(** A run with distinct identifiers: one game is running, two challenges
    wait. *)
Lemma queue_identifiers_distinct_witness :
  [offer "b" 9; offer "a" 5]
    ⊆+ supported_challenges (best_first 1)
         [EvGameStart "g"; EvChallenge (offer "a" 5); EvChallenge (offer "b" 9)]
  ∧ NoDup (challenge_id <$> [offer "b" 9; offer "a" 5]).
Proof.
  apply (queue_identifiers_distinct (best_first 1)
           [EvGameStart "g"; EvChallenge (offer "a" 5); EvChallenge (offer "b" 9)]
           ()
           {| busy_processes := 1; queued_processes := 0;
              challenge_queue := [offer "b" 9; offer "a" 5];
              pool := ["g"%string]; li := () |}).
  - left. reflexivity.
  - apply (bool_decide_unpack _). vm_compute. exact I.
Defined.

(** C7 as stated fails: two queued challenges of one score are not in
    strictly descending order. *)
Lemma equal_scores_not_strictly_descending :
  start_loop (best_first 1)
    [EvGameStart "g"; EvChallenge (offer "b" 1600); EvChallenge (offer "c" 1600)]
    (init ())
  = Running {| busy_processes := 1; queued_processes := 0;
               challenge_queue := [offer "b" 1600; offer "c" 1600];
               pool := ["g"%string]; li := () |}
  ∧ ¬ Sorted (λ a b : Offer, score b < score a)
        [offer "b" 1600; offer "c" 1600].
Proof.
  split; [reflexivity|].
  intros Hsorted. inversion_clear Hsorted as [|? ? _ Hhd].
  inversion_clear Hhd as [|? ? Hlt]. simpl in Hlt. lia.
Qed.

(** A best-first run: one game is running; the challenges of score 5 stay
    in the order of their arrival behind the challenge of score 9. *)
Lemma best_first_queue_sorted_witness :
  Sorted (λ a b : Offer, score b ≤ score a)
    [offer "b" 9; offer "a" 5; offer "c" 5]
  ∧ ∀ s, filter (λ c : Offer, score c = s) [offer "b" 9; offer "a" 5; offer "c" 5]
         `suffix_of`
         filter (λ c : Offer, score c = s)
           (supported_challenges (best_first 1)
              [EvGameStart "g"; EvChallenge (offer "a" 5);
               EvChallenge (offer "b" 9); EvChallenge (offer "c" 5)]).
Proof.
  apply (best_first_queue_sorted (best_first 1)
           [EvGameStart "g"; EvChallenge (offer "a" 5);
            EvChallenge (offer "b" 9); EvChallenge (offer "c" 5)]
           ()
           {| busy_processes := 1; queued_processes := 0;
              challenge_queue := [offer "b" 9; offer "a" 5; offer "c" 5];
              pool := ["g"%string]; li := () |}).
  - reflexivity.
  - reflexivity.
Defined.

(** Accept and decline against a server that answers 404 for the
    challenge ["gone"] and 403 for ["denied"]. *)
Lemma not_found_swallowed_witness :
  let waiting (the_id : string) :=
    {| busy_processes := 0; queued_processes := 0;
       challenge_queue := [offer the_id 5; offer "next" 4];
       pool := []; li := () |} in
  let popped :=
    {| busy_processes := 0; queued_processes := 0;
       challenge_queue := [offer "next" 4]; pool := []; li := () |} in
  let chess960 (the_id : string) :=
    {| offer_id := the_id; offer_variant := "chess960"; offer_score := 5 |} in
  (drain (best_first 1) (waiting "gone") = drain (best_first 1) popped
   ∧ drain (best_first 1) popped
     = Running {| busy_processes := 0; queued_processes := 1;
                  challenge_queue := []; pool := []; li := () |})
  ∧ drain (best_first 1) (waiting "denied") = Raised (HTTPError 403) popped
  ∧ handle_event (best_first 1) (EvChallenge (chess960 "gone")) (init ())
    = Running (init ())
  ∧ handle_event (best_first 1) (EvChallenge (chess960 "denied")) (init ())
    = Raised (HTTPError 403) (init ())
  ∧ start_loop (best_first 1)
      [EvChallenge (chess960 "denied"); EvChallenge (offer "a" 5)] (init ())
    = Raised (HTTPError 403) (init ()).
Proof.
  intros waiting popped chess960. split; [split|split; [|split; [|split]]].
  - apply (not_found_swallowed_other_errors_fatal (best_first 1)
             (waiting "gone") (offer "gone" 5) [offer "next" 4] 404 ());
      [reflexivity|vm_compute; reflexivity|reflexivity|reflexivity].
  - reflexivity.
  - apply (not_found_swallowed_other_errors_fatal (best_first 1)
             (waiting "denied") (offer "denied" 5) [offer "next" 4] 403 ());
      [reflexivity|vm_compute; reflexivity|reflexivity|lia].
  - apply (not_found_swallowed_other_errors_fatal (best_first 1)
             (init ()) (chess960 "gone") [] 404 ());
      [reflexivity|reflexivity|reflexivity].
  - apply (not_found_swallowed_other_errors_fatal (best_first 1)
             (init ()) (chess960 "denied") [] 403 ());
      [reflexivity|reflexivity|lia].
  - apply (not_found_swallowed_other_errors_fatal (best_first 1)
             (init ()) (chess960 "denied") [] 403 ()); [discriminate|].
    left. reflexivity.
Defined.

(** The entry point called for a bot account with the default arguments. *)
Lemma serve_lichess_policy_witness :
  serve_lichess () 1 ["bullet"%string; "blitz"%string; "rapid"%string]
    ["casual"%string] false false "https://lichess.org/"
  = ((), Ok (Some ({| profile_username := "engine"; title := Some "BOT"%string |},
                   default_config)))
  ∧ sort_by (challenge default_config) = Some "first"%string
  ∧ sort_best (challenge default_config) = false.
Proof.
  split; [reflexivity|].
  pose proof (serve_lichess_policy () () 1
                ["bullet"%string; "blitz"%string; "rapid"%string]
                ["casual"%string] false false "https://lichess.org/"
                {| profile_username := "engine"; title := Some "BOT"%string |}
                default_config eq_refl) as (Hfixed & _ & Hfirst & _).
  split; [apply Hfixed|apply Hfirst].
Defined.

(** ** The consumer and the worker on concrete streams *)

(** C4 as stated fails: when the event stream ends normally the consumer
    returns and the queue holds the forwarded ping only; when the stream
    raises a final [HTTPError] the consumer raises it, and the queue holds
    no [terminated] either. *)
Lemma no_terminated_on_normal_end :
  (watch_control_stream 3
     {| control_queue := [];
        feed_world := {| control_lines := [CBlank]; control_end := Exhausted |} |}
   = (Ok (),
      {| control_queue := [EvPing];
         feed_world := {| control_lines := [CBlank]; control_end := Exhausted |} |})
   ∧ EvTerminated ∉ ([EvPing] : list (Event Offer)))
  ∧ (watch_control_stream 3
       {| control_queue := [];
          feed_world := {| control_lines := [CBlank];
                           control_end := Broken (HTTPError 401) |} |}
     = (Raise (HTTPError 401),
        {| control_queue := [EvPing];
           feed_world := {| control_lines := [CBlank];
                            control_end := Broken (HTTPError 401) |} |})
     ∧ EvTerminated ∉ ([EvPing] : list (Event Offer))).
Proof.
  assert (EvTerminated ∉ ([EvPing] : list (Event Offer))) as Hnot.
  { intros Hin. apply list_elem_of_singleton in Hin. discriminate. }
  repeat split; done.
Qed.

(** The same two lines on a stream that breaks with a connection error, on
    one that ends normally and on one that breaks with a final error. *)
Lemma terminated_on_connection_error_witness :
  let stream (the_end : StreamEnd) :=
    {| control_lines := [CBlank; CJson (EvChallenge (offer "a" 5))];
       control_end := the_end |} in
  let feed (the_end : StreamEnd) :=
    {| control_queue := []; feed_world := stream the_end |} in
  watch_control_stream 3 (feed (Broken ConnectionError))
  = (Ok (), {| control_queue := [EvPing; EvChallenge (offer "a" 5); EvTerminated];
               feed_world := stream (Broken ConnectionError) |})
  ∧ watch_control_stream 3 (feed Exhausted)
    = (Ok (), {| control_queue := [EvPing; EvChallenge (offer "a" 5)];
                 feed_world := stream Exhausted |})
  ∧ watch_control_stream 3 (feed (Broken (HTTPError 401)))
    = (Raise (HTTPError 401),
       {| control_queue := [EvPing; EvChallenge (offer "a" 5)];
          feed_world := stream (Broken (HTTPError 401)) |}).
Proof.
  intros stream feed.
  assert (∀ the_end,
            (∀ e retries, the_end = Broken e → is_connection_error e = true →
               watch_control_stream retries (feed the_end)
               = (Ok (), {| control_queue := [EvPing; EvChallenge (offer "a" 5)]
                                             ++ [EvTerminated];
                            feed_world := stream the_end |}))
            ∧ (∀ retries, the_end = Exhausted →
                 watch_control_stream retries (feed the_end)
                 = (Ok (), {| control_queue := [EvPing; EvChallenge (offer "a" 5)];
                              feed_world := stream the_end |}))
            ∧ (∀ e retries, the_end = Broken e → is_final e = true →
                 watch_control_stream retries (feed the_end)
                 = (Raise e, {| control_queue := [EvPing; EvChallenge (offer "a" 5)];
                                feed_world := stream the_end |}))) as Hcases.
  { intros the_end.
    pose proof (terminated_on_connection_error
                  (GameWorld := list (Result GameStream)) (Board := list string)
                  (Move := string) (Engine := unit)
                  (feed the_end) (stream the_end) (stream the_end)
                  [EvPing; EvChallenge (offer "a" 5)]) as Hthm.
    destruct Hthm as (_ & Hbroken & Hend & Hfinal & _);
      [reflexivity|reflexivity|].
    split; [exact Hbroken|]. split; [exact Hend|exact Hfinal]. }
  split; [|split].
  - apply (proj1 (Hcases (Broken ConnectionError)) ConnectionError 3%nat);
      reflexivity.
  - apply (proj1 (proj2 (Hcases Exhausted)) 3%nat). reflexivity.
  - apply (proj2 (proj2 (Hcases (Broken (HTTPError 401)))) (HTTPError 401) 3%nat);
      reflexivity.
Defined.

(** C2 fails on the code.  When opening the game stream raises a
    connection error four times and the wrapper gives up, no
    [local_game_done] is on the control queue.  When a [gameState] update
    has an empty move list, [moves[-1]] raises [IndexError] inside the
    [try]; the [finally] reports, the wrapper calls [play_game] again, and
    the second call reports again: two [local_game_done] for one game. *)
Lemma local_game_done_not_exactly_once :
  play_game 3 default_config "g"
    (session_with (replicate 4 (Raise ConnectionError)))
  = (Raise ConnectionError, session_with [])
  ∧ play_game 3 default_config "g"
      (session_with [Ok aborted_stream; Ok finished_stream])
    = (Ok (), {| session_queue := [EvLocalGameDone; EvLocalGameDone];
                 session_world := [];
                 session_calls := [CallEngineStop; CallEngineStop] |}).
Proof. split; reflexivity. Qed.

(** An update in which white has moved and the engine plays black. *)
Lemma engine_asked_once_witness :
  let st := {| game := black_game [] 20; board := ([] : list string); engine := ();
               world := ([] : list (Result GameStream)); calls := [] |} in
  let upd := {| model.moves := ["e2e4"%string];
                model.numbers := {[ "wtime"%string := 60000; "btime"%string := 60000;
                                    "wdraw"%string := 0 ]} |} in
  let new_calls := [CallEngineMove ["e2e4"%string] (clock_of upd);
                    CallMakeMove "g" "e7e5"%string] in
  ∃ r st',
    handle_chunk default_config (GJson (GameStateUpd upd)) st = (r, st')
    ∧ board st' = ["e2e4"%string]
    ∧ calls st' = calls st ++ new_calls
    ∧ engine_requests new_calls = 1%nat
    ∧ move_submissions new_calls = 1%nat
    ∧ r = Ok ().
Proof.
  intros st upd new_calls.
  exact (engine_asked_once_on_its_turn default_config upd st "e2e4"
           ["e2e4"%string] eq_refl eq_refl).
Defined.

(** The clock the engine gets holds the clock keys of the update only. *)
Example clock_of_keeps_clock_keys :
  clock_of {| model.moves := ["e2e4"%string];
              model.numbers := {[ "wtime"%string := 60000; "btime"%string := 60000;
                                  "wdraw"%string := 0 ]} |}
  = {[ "wtime"%string := 60000; "btime"%string := 60000 ]}.
Proof. by vm_compute. Qed.

(** Blank lines alone lead to an abort once the deadline has passed. *)
Example blank_lines_abort :
  play_game 3 default_config "g"
    (session_with [Ok {| snapshot := Ok (black_game [] 0);
                         game_lines := [GBlank];
                         game_end := Exhausted |}])
  = (Ok (), {| session_queue := [EvLocalGameDone];
               session_world := [];
               session_calls := [CallAbort "g"; CallEngineStop] |}).
Proof. reflexivity. Qed.

(** A snapshot with two moves and two updates give the board of a
    snapshot with four moves. *)
Example incremental_replay_example :
  advance_all (setup_board (black_game ["e2e4"; "e7e5"]%string 20))
    [["e2e4"; "e7e5"; "g1f3"]%string; ["e2e4"; "e7e5"; "g1f3"; "b8c6"]%string]
  = Ok ["e2e4"; "e7e5"; "g1f3"; "b8c6"]%string
  ∧ setup_board (black_game ["e2e4"; "e7e5"; "g1f3"; "b8c6"]%string 20)
    = Ok ["e2e4"; "e7e5"; "g1f3"; "b8c6"]%string.
Proof. split; reflexivity. Qed.

(** * Further properties *)

(** ** The dispatcher *)

Section DispatcherMore.
Context {Challenge World : Type}.
Context `{!ChallengeModel Challenge, !DispatcherTransport World}.

Implicit Types (st : @Dispatcher Challenge World) (cfg : ChallengeConfig).

Lemma started_games_app (l k : list (Event Challenge)) :
  started_games (l ++ k) = started_games l ++ started_games k.
Proof.
  induction l as [|event l IH]; simpl; [done|].
  destruct event; simpl; by rewrite ?IH.
Qed.

Lemma finished_games_app (l k : list (Event Challenge)) :
  finished_games (l ++ k) = (finished_games l + finished_games k)%nat.
Proof.
  induction l as [|event l IH]; simpl; [done|].
  destruct event; simpl; by rewrite ?IH.
Qed.

(** What one iteration does to the pool and to [busy_processes]. *)
Lemma dispatch_launches cfg event st st' :
  dispatch cfg event st = Running st' →
  pool st' = pool st ++ started_games [event]
  ∧ busy_processes st'
    = busy_processes st + Z.of_nat (length (started_games [event]))
      - Z.of_nat (finished_games [event]).
Proof.
  unfold dispatch, drain.
  destruct (handle_event cfg event st) as [st1| |] eqn:Hh; try done.
  intros Hd. apply drain_queue_running in Hd as (-> & -> & _).
  destruct event; simpl in *.
  - injection Hh as <-. rewrite app_nil_r. split; [done|lia].
  - injection Hh as <-. simpl. rewrite app_nil_r. split; [done|lia].
  - rewrite app_nil_r.
    destruct (is_supported _ _); [injection Hh as <-; split; [done|simpl; lia]|].
    destruct (decline_challenge _ _) as [w [[]|e]];
      [injection Hh as <-; split; [done|simpl; lia]|].
    destruct e; try done. case_bool_decide; [done|].
    injection Hh as <-; split; [done|simpl; lia].
  - injection Hh as <-. simpl. split; [done|lia].
  - injection Hh as <-. rewrite app_nil_r. split; [done|lia].
  - injection Hh as <-. rewrite app_nil_r. split; [done|lia].
Qed.

(** X1.  Every [gameStart] event launches one worker, whatever the
    counters say: wherever the loop waits, the games handed to the pool
    are the games of the [gameStart] events, in the order of the events. *)
Theorem every_game_start_launches cfg (events : list (Event Challenge))
    (w : World) st :
  start_loop cfg events (init w) = Running st →
  pool st = started_games events.
Proof.
  intros Hrun.
  apply (start_loop_running_inv (λ hist s, pool s = started_games hist) cfg)
    with (events := events) (hist := []) (st := init w); [|done..].
  intros hist event s s' Hs Hd.
  apply dispatch_launches in Hd as [-> _].
  by rewrite started_games_app, Hs.
Qed.

(** X2.  [busy_processes] is the number of [gameStart] events less the
    number of [local_game_done] events processed. *)
Theorem busy_counts_starts_less_reports cfg (events : list (Event Challenge))
    (w : World) st :
  start_loop cfg events (init w) = Running st →
  busy_processes st
  = Z.of_nat (length (started_games events)) - Z.of_nat (finished_games events).
Proof.
  intros Hrun.
  apply (start_loop_running_inv
           (λ hist s, busy_processes s
                      = Z.of_nat (length (started_games hist))
                        - Z.of_nat (finished_games hist)) cfg)
    with (events := events) (hist := []) (st := init w); [|done..].
  intros hist event s s' Hs Hd.
  apply dispatch_launches in Hd as [_ ->].
  rewrite started_games_app, finished_games_app, length_app, Hs. lia.
Qed.

(** What holds after each pass holds wherever the loop waits or ends,
    when it holds at the start. *)
Lemma after_pass_inv (P : @Dispatcher Challenge World → Prop) cfg :
  (∀ event st st', dispatch cfg event st = Running st' → P st') →
  ∀ events st0 st,
    P st0 → after_pass (start_loop cfg events st0) st → P st.
Proof.
  intros Hstep events st0 st H0.
  assert (∀ evs st', start_loop cfg evs st0 = Running st' → P st') as Hrun.
  { intros evs st' Hrun.
    apply (start_loop_running_inv (λ _ s, P s) cfg)
      with (events := evs) (hist := []) (st := st0); [|done..].
    intros _ event s s' _ Hd. by eapply Hstep. }
  intros [Hr|Hf]; [by eapply Hrun|].
  apply start_loop_finished in Hf as (before & rest & _ & Hr). by eapply Hrun.
Qed.

(** X3.  The admission pass goes as far as it can: wherever the loop
    waits or ends, the queue is empty or the counters have reached the
    capacity. *)
Theorem admission_pass_is_maximal cfg (events : list (Event Challenge))
    (w : World) st :
  after_pass (start_loop cfg events (init w)) st →
  challenge_queue st = []
  ∨ max_games cfg ≤ queued_processes st + busy_processes st.
Proof.
  apply (after_pass_inv
           (λ s, challenge_queue s = []
                 ∨ max_games cfg ≤ queued_processes s + busy_processes s)).
  - intros event s s'. unfold dispatch, drain.
    destruct (handle_event cfg event s) as [s1| |]; try done.
    intros Hd. apply drain_queue_running in Hd as (-> & _ & _ & _ & _ & Hfull).
    done.
  - by left.
Qed.

(** X6.  A second admission pass right after a first does nothing: it
    calls the server for no challenge and leaves the state as it is. *)
Theorem admission_pass_idempotent cfg st st' :
  drain cfg st = Running st' → drain cfg st' = Running st'.
Proof.
  unfold drain. intros Hd.
  apply drain_queue_running in Hd as (Hbusy & _ & _ & _ & _ & Hfull).
  rewrite <- Hbusy in Hfull.
  destruct st' as [busy queued queue the_pool w]; simpl in *.
  destruct queue as [|chlng rest]; [done|]. simpl.
  destruct Hfull as [?|Hfull]; [done|].
  by rewrite bool_decide_eq_false_2 by lia.
Qed.

(** The events after a [terminated] are not read. *)
Lemma start_loop_stops cfg (before rest : list (Event Challenge)) st :
  start_loop cfg (before ++ EvTerminated :: rest) st
  = start_loop cfg (before ++ [EvTerminated]) st.
Proof.
  revert st. induction before as [|event before IH]; intros st; [done|].
  destruct event; [done|..].
  all: rewrite <- !app_comm_cons, !start_loop_cons by done.
  all: destruct (dispatch cfg _ st); [apply IH|done..].
Qed.

Lemma start_loop_not_running_after_terminated cfg
    (before rest : list (Event Challenge)) st st' :
  start_loop cfg (before ++ EvTerminated :: rest) st ≠ Running st'.
Proof.
  revert st. induction before as [|event before IH]; intros st; [done|].
  destruct event; [done|..].
  all: rewrite <- !app_comm_cons, !start_loop_cons by done.
  all: destruct (dispatch cfg _ st); [apply IH|done..].
Qed.

(** X7.  A [terminated] event ends the loop: the events behind it change
    nothing, and the loop does not wait for another event. *)
Theorem terminated_ends_the_loop cfg (before rest : list (Event Challenge)) st :
  start_loop cfg (before ++ EvTerminated :: rest) st
  = start_loop cfg (before ++ [EvTerminated]) st
  ∧ ∀ st', start_loop cfg (before ++ EvTerminated :: rest) st ≠ Running st'.
Proof.
  split; [apply start_loop_stops|].
  intros st'. apply start_loop_not_running_after_terminated.
Qed.

Lemma supported_challenges_supported cfg (events : list (Event Challenge)) chlng :
  chlng ∈ supported_challenges cfg events → is_supported chlng cfg = true.
Proof.
  induction events as [|event events IH]; simpl; [by intros ?%elem_of_nil|].
  destruct event; try done.
  destruct (is_supported chlng0 cfg) eqn:Hs; [|done].
  intros [->|?]%elem_of_cons; [done|by apply IH].
Qed.

(** X8.  An unsupported challenge never gets into the queue: wherever the
    loop waits or ends, every queued challenge is supported. *)
Theorem queue_holds_supported_only cfg (events : list (Event Challenge))
    (w : World) st :
  after_pass (start_loop cfg events (init w)) st →
  Forall (λ chlng, is_supported chlng cfg = true) (challenge_queue st).
Proof.
  intros Hafter. apply start_loop_queue_arrivals in Hafter.
  apply Forall_forall. intros chlng Hin.
  apply (supported_challenges_supported cfg events).
  by eapply elem_of_submseteq.
Qed.

(** An admission pass pops at least one challenge for each one it counts. *)
Lemma drain_queue_pops capacity busy the_pool queue queued w st :
  drain_queue capacity busy the_pool queue queued w = Running st →
  queued_processes st + Z.of_nat (length (challenge_queue st))
  ≤ queued + Z.of_nat (length queue).
Proof.
  revert queued w. induction queue as [|chlng rest IH]; intros queued w; simpl.
  - intros [= <-]; simpl. lia.
  - case_bool_decide.
    + destruct (accept_challenge w (challenge_id chlng)) as [w' [[]|e]].
      * intros Hrun. apply IH in Hrun. lia.
      * destruct e; try done. case_bool_decide; [|done].
        intros Hrun. apply IH in Hrun. lia.
    + intros [= <-]; simpl. lia.
Qed.

(** X9.  The games accepted and not yet started, together with the
    challenges still queued, are never more than the supported challenges
    that arrived. *)
Theorem accepted_and_queued_bounded cfg (events : list (Event Challenge))
    (w : World) st :
  start_loop cfg events (init w) = Running st →
  queued_processes st + Z.of_nat (length (challenge_queue st))
  ≤ Z.of_nat (length (supported_challenges cfg events)).
Proof.
  intros Hrun.
  apply (start_loop_running_inv
           (λ hist s, queued_processes s + Z.of_nat (length (challenge_queue s))
                      ≤ Z.of_nat (length (supported_challenges cfg hist))) cfg)
    with (events := events) (hist := []) (st := init w); [|done..].
  intros hist event s s' Hs Hd. unfold dispatch, drain in Hd.
  destruct (handle_event cfg event s) as [s1| |] eqn:Hh; try done.
  apply drain_queue_pops in Hd.
  pose proof (handle_event_queue_perm _ _ _ _ Hh) as Hperm.
  apply Permutation_length in Hperm. rewrite length_app in Hperm.
  rewrite supported_challenges_app, length_app.
  assert (queued_processes s1 ≤ queued_processes s); [|lia].
  destruct event; simpl in Hh; try (injection Hh as <-; simpl; lia).
  - destruct (is_supported _ _); [injection Hh as <-; simpl; lia|].
    destruct (decline_challenge _ _) as [w0 [[]|e]];
      [injection Hh as <-; simpl; lia|].
    destruct e; try done. case_bool_decide; [done|].
    injection Hh as <-; simpl; lia.
  - injection Hh as <-; simpl. case_bool_decide; lia.
Qed.

(** Under the first-come policy the queue is the end of the arrivals. *)
Lemma first_come_queue_running cfg (events : list (Event Challenge)) (w : World) st :
  sort_best cfg = false →
  start_loop cfg events (init w) = Running st →
  challenge_queue st `suffix_of` supported_challenges cfg events.
Proof.
  intros Hfirst Hrun.
  apply (start_loop_running_inv
           (λ hist s, challenge_queue s `suffix_of` supported_challenges cfg hist) cfg)
    with (events := events) (hist := []) (st := init w); [|done..].
  intros hist event s s' Hs Hd.
  apply dispatch_queue in Hd as (s1 & Hh & Hsuffix).
  apply handle_event_queue in Hh. rewrite Hfirst in Hh.
  rewrite supported_challenges_app. etrans; [done|].
  rewrite Hh. destruct (supported_challenges cfg [event]) as [|c l].
  - by rewrite app_nil_r.
  - by apply suffix_app.
Qed.

(** X4.  Under the first-come policy challenges are taken in the order of
    their arrival: wherever the loop waits, the queue holds the supported
    challenges that arrived last, in that order, and the ones before them
    were popped. *)
Theorem first_come_first_served cfg (events : list (Event Challenge))
    (w : World) st :
  sort_best cfg = false →
  start_loop cfg events (init w) = Running st →
  ∃ popped, supported_challenges cfg events = popped ++ challenge_queue st.
Proof.
  intros Hfirst Hrun.
  by destruct (first_come_queue_running _ _ _ _ Hfirst Hrun) as [popped ->];
    exists popped.
Qed.

Lemma best_first_sorted_running cfg (events : list (Event Challenge)) (w : World) st :
  sort_best cfg = true →
  start_loop cfg events (init w) = Running st →
  Sorted (λ a b, score b ≤ score a) (challenge_queue st).
Proof.
  intros Hbest Hrun.
  apply (start_loop_running_inv
           (λ _ s, Sorted (λ a b, score b ≤ score a) (challenge_queue s)) cfg)
    with (events := events) (hist := []) (st := init w); [| |done].
  - intros _ event s s' Hsorted Hd.
    apply dispatch_queue in Hd as (s1 & Hh & Hsuffix).
    apply handle_event_queue in Hh. rewrite Hbest in Hh.
    eapply Sorted_suffix; [done|]. rewrite Hh.
    destruct (supported_challenges cfg [event]) as [|c l]; [done|].
    eapply Sorted_weaken; [|apply sort_by_key_sorted].
    unfold key_le. intros a b. lia.
  - constructor.
Qed.

(** X5.  Under the best-first policy the next challenge to be accepted is
    one of the highest score: wherever the loop waits or ends, no queued
    challenge has a higher score than the head of the queue. *)
Theorem best_first_head_is_best cfg (events : list (Event Challenge))
    (w : World) st chlng rest :
  sort_best cfg = true →
  after_pass (start_loop cfg events (init w)) st →
  challenge_queue st = chlng :: rest →
  Forall (λ other, score other ≤ score chlng) rest.
Proof.
  intros Hbest Hafter Hqueue.
  assert (Sorted (λ a b, score b ≤ score a) (challenge_queue st)) as Hsorted.
  { destruct Hafter as [Hr|Hf]; [by eapply best_first_sorted_running|].
    apply start_loop_finished in Hf as (before & rest' & _ & Hr).
    by eapply best_first_sorted_running. }
  rewrite Hqueue in Hsorted.
  apply Sorted_StronglySorted in Hsorted.
  - by inversion Hsorted.
  - intros a b c. lia.
Qed.

End DispatcherMore.

(** ** The control-stream consumer *)

Section ConsumerMore.
Context {Challenge World : Type} `{!ControlTransport Challenge World}.

Lemma forward_lines_app (l1 rest : list (ControlLine Challenge)) queue :
  CGarbled ∉ l1 →
  forward_lines (l1 ++ rest) queue = forward_lines rest (queue ++ events_of l1).
Proof.
  revert queue. induction l1 as [|line l1 IH]; intros queue Hclean; simpl.
  - by rewrite app_nil_r.
  - apply not_elem_of_cons in Hclean as [Hline Hclean].
    destruct line; [| |done]; rewrite IH by done; by rewrite <- app_assoc.
Qed.

(** X10.  A line that [json.loads] rejects ends the call with
    [ValueError]: the lines before it are forwarded, the lines after it
    are not, and no [terminated] is put on the queue. *)
Theorem garbled_line_stops_forwarding (s : @Feed Challenge World) w response
    (l1 l2 : list (ControlLine Challenge)) :
  get_event_stream (feed_world s) = (w, Ok response) →
  control_lines response = l1 ++ CGarbled :: l2 →
  CGarbled ∉ l1 →
  watch_control_stream_once s
  = (Raise ValueError,
     {| control_queue := control_queue s ++ events_of l1; feed_world := w |}).
Proof.
  intros Hget Hlines Hclean. unfold watch_control_stream_once, read_stream.
  rewrite Hget, Hlines, forward_lines_app by done. done.
Qed.

(** X11.  A connection error while the stream is opened is outside the
    [try]: nothing is put on the queue, and the wrapper opens the stream
    again while its budget lasts, then raises the error. *)
Theorem opening_error_is_retried (s : @Feed Challenge World) w e retries :
  get_event_stream (feed_world s) = (w, Raise e) →
  is_connection_error e = true →
  watch_control_stream (Datatypes.S retries) s
  = watch_control_stream retries
      {| control_queue := control_queue s; feed_world := w |}
  ∧ watch_control_stream 0 s
    = (Raise e, {| control_queue := control_queue s; feed_world := w |}).
Proof.
  intros Hget Hconn.
  assert (watch_control_stream_once s
          = (Raise e, {| control_queue := control_queue s; feed_world := w |}))
    as Honce by (unfold watch_control_stream_once; by rewrite Hget).
  assert (is_final e = false) as Hfinal by (by destruct e).
  unfold watch_control_stream. split.
  - by apply (backoff_retries watch_control_stream_once retries s e).
  - by apply (backoff_exhausted watch_control_stream_once s e).
Qed.

Lemma forward_lines_prefix (lines : list (ControlLine Challenge)) queue r queue' :
  forward_lines lines queue = (r, queue') → queue `prefix_of` queue'.
Proof.
  revert queue. induction lines as [|line rest IH]; intros queue; simpl.
  - by intros [= _ <-].
  - destruct line.
    + intros Hf. apply IH in Hf. etrans; [|done]. by apply prefix_app_r.
    + intros Hf. apply IH in Hf. etrans; [|done]. by apply prefix_app_r.
    + by intros [= _ <-].
Qed.

Lemma watch_control_stream_once_prefix (s s' : @Feed Challenge World) r :
  watch_control_stream_once s = (r, s') →
  control_queue s `prefix_of` control_queue s'.
Proof.
  unfold watch_control_stream_once, read_stream.
  destruct (get_event_stream (feed_world s)) as [w [response|e]];
    [|by intros [= _ <-]].
  destruct (forward_lines _ _) as [[[]|e] queue] eqn:Hf;
    apply forward_lines_prefix in Hf.
  - destruct (control_end response) as [|e].
    + by intros [= _ <-].
    + destruct (is_connection_error e); intros [= _ <-]; simpl; [|done].
      etrans; [done|]. by apply prefix_app_r.
  - destruct (is_connection_error e); intros [= _ <-]; simpl; [|done].
    etrans; [done|]. by apply prefix_app_r.
Qed.

(** X12.  The consumer only appends to the control queue: through all the
    calls of the wrapper, the events that were on the queue stay at its
    front in their order. *)
Theorem consumer_only_appends retries (s s' : @Feed Challenge World) r :
  watch_control_stream retries s = (r, s') →
  control_queue s `prefix_of` control_queue s'.
Proof.
  unfold watch_control_stream. intros Hw.
  apply (backoff_preserves watch_control_stream_once
           (λ a b : @Feed Challenge World,
              control_queue a `prefix_of` control_queue b)) in Hw; [done|..].
  - intros a b c Hab Hbc. by etrans.
  - intros a r0 b. apply watch_control_stream_once_prefix.
Qed.

End ConsumerMore.

(** ** Whose move it is *)

Lemma parity_flips (n c : Z) :
  0 ≤ n → (c = 0 ∨ c = 1) →
  bool_decide ((n + 1) `mod` 2 = c) = negb (bool_decide (n `mod` 2 = c)).
Proof.
  intros Hn Hc.
  assert ((n + 1) `mod` 2 = 1 - n `mod` 2) as ->.
  { pose proof (Z.mod_pos_bound n 2 ltac:(lia)) as Hbound.
    rewrite Z.add_mod by lia.
    assert (n `mod` 2 = 0 ∨ n `mod` 2 = 1) as [->| ->] by lia; done. }
  pose proof (Z.mod_pos_bound n 2 ltac:(lia)).
  repeat case_bool_decide; simpl; try done; lia.
Qed.

(** X13.  The turn changes with every move: after one more move it is the
    engine's move exactly when it was not before, whoever started. *)
Theorem turns_alternate (game : model.Game) (the_moves : list string) move :
  is_white_to_move game (the_moves ++ [move])
  = negb (is_white_to_move game the_moves)
  ∧ is_engine_move game (the_moves ++ [move])
    = negb (is_engine_move game the_moves).
Proof.
  assert (is_white_to_move game (the_moves ++ [move])
          = negb (is_white_to_move game the_moves)) as Hflip.
  { unfold is_white_to_move. rewrite length_app, Nat2Z.inj_add. simpl.
    apply parity_flips; [lia|]. destruct (model.white_starts game); lia. }
  split; [done|].
  unfold is_engine_move. rewrite Hflip.
  by destruct (model.is_white game), (is_white_to_move game the_moves).
Qed.

(** ** The game worker *)

Section WorkerMore.
Context {Challenge World Board Move Engine : Type}.
Context `{!Rules Board Move, !EngineHandle Engine Board Move}.
Context `{!WorkerTransport World Move, !WorkerEnv World Engine}.

Implicit Types (st : @Worker World Board Move Engine).
Implicit Types (s : @Session Challenge World Board Move).

(** *** One chunk after another *)



(** *** The [gameState] branch at its edges *)

(** X16.  A [gameState] update with no move, or whose newest move
    [from_uci] rejects, raises ([IndexError], or the error of [from_uci])
    before any call to the engine or the server: the board is as it was,
    but [game.state] is the update already. *)
Theorem broken_update_raises_early config upd st e :
  advance (board st) (model.moves upd) = Raise e →
  on_game_state config upd st
  = (Raise e, set_game (model.set_state upd (game st)) st).
Proof.
  unfold advance, on_game_state.
  destruct (last (model.moves upd)) as [newest|]; [|by intros [= <-]].
  simpl. destruct (update_board (board st) newest); [done|].
  by intros [= <-].
Qed.

(** X17.  The abort deadline is set anew only after a move of the engine
    went through: the game a [gameState] update leaves is the game with
    the update as its state, with [abort_in] applied to it exactly when it
    was the engine's turn and [li.make_move] returned. *)
Theorem deadline_reset_after_submitted_move config upd st newest (board' : Board) :
  last (model.moves upd) = Some newest →
  update_board (board st) newest = Ok board' →
  let engine_turn :=
    negb (is_game_over board') && is_engine_move (game st) (model.moves upd) in
  let best_move := (engine_move (engine st) board' (clock_of upd)).2 in
  let updated := model.set_state upd (game st) in
  game (on_game_state config upd st).2
  = if engine_turn
    then match make_move (world st) (model.id (game st)) best_move with
         | (w, Ok _) => abort_in w updated (default 20 (abort_time config))
         | (_, Raise _) => updated
         end
    else updated.
Proof.
  intros Hlast Hboard engine_turn best_move updated.
  subst engine_turn best_move updated.
  unfold on_game_state. rewrite Hlast. simpl. rewrite Hboard.
  change (is_engine_move (model.set_state upd (game st)) (model.moves upd))
    with (is_engine_move (game st) (model.moves upd)).
  destruct (negb (is_game_over board') && is_engine_move (game st) (model.moves upd));
    [|done].
  unfold move_and_submit. simpl.
  destruct (engine_move (engine st) board' (clock_of upd)) as [engine' best_move].
  simpl.
  by destruct (make_move (world st) (model.id (game st)) best_move) as [w [[]|e]].
Qed.

(** *** The first move *)

(** X18.  Before the stream loop the worker moves exactly when the
    snapshot says it is the engine's turn, with the fixed clock
    [{'movetime': 10000}] whatever the clock of the game, and leaves the
    board as [setup_board] built it: the move comes back in a later
    [gameState] update. *)
Theorem first_move_on_engine_turn st :
  let engine_turn := is_engine_move (game st) (model.moves (model.state (game st))) in
  let best_move := (engine_move (engine st) (board st) first_move_clock).2 in
  let first := play_first_move st in
  board first.2 = board st ∧ game first.2 = game st
  ∧ calls first.2
    = calls st ++ (if engine_turn
                   then [CallEngineMove (board st) first_move_clock;
                         CallMakeMove (model.id (game st)) best_move]
                   else [])
  ∧ first.1
    = if engine_turn
      then match (make_move (world st) (model.id (game st)) best_move).2 with
           | Ok _ => Ok true
           | Raise e => Raise e
           end
      else Ok false.
Proof.
  intros engine_turn best_move first. subst engine_turn best_move first.
  unfold play_first_move.
  destruct (is_engine_move (game st) (model.moves (model.state (game st)))).
  - unfold move_and_submit.
    destruct (engine_move (engine st) (board st) first_move_clock)
      as [engine' best_move]. simpl.
    destruct (make_move (world st) (model.id (game st)) best_move) as [w [[]|e]];
      simpl; by rewrite <- app_assoc.
  - simpl. by rewrite app_nil_r.
Qed.

(** *** Building the board *)

(** X19.  The initial position of the game counts for the variants
    [chess960] (in any case of the letters) and [From Position] only: for
    every other variant [setup_board] builds the same board whatever
    [initial_fen] is. *)
Theorem fen_ignored_for_other_variants (the_game : model.Game) (fen : string) :
  lower (model.variant_name the_game) ≠ "chess960"%string →
  model.variant_name the_game ≠ "From Position"%string →
  (setup_board (with_fen fen the_game) : Result Board) = setup_board the_game.
Proof.
  intros Hchess960 Hposition. unfold setup_board. simpl.
  by rewrite !bool_decide_eq_false_2 by done.
Qed.

(** X20.  [setup_board] fails on the first recorded move that [from_uci]
    rejects, with the error of [from_uci], whatever follows that move. *)
Theorem setup_board_fails_at_first_bad_move (the_game : model.Game)
    (good rest : list string) (board0 : Board) bad e :
  setup_board (with_moves good the_game) = Ok board0 →
  from_uci bad = (Raise e : Result Move) →
  (setup_board (with_moves (good ++ bad :: rest) the_game) : Result Board)
  = Raise e.
Proof.
  intros Hgood Hbad. rewrite setup_board_more_moves, Hgood. simpl.
  unfold update_board. by rewrite Hbad.
Qed.

(** *** Leaving [play_game] *)

(** X21.  When a statement before the [try] raises (opening the stream,
    reading the snapshot, or [setup_board]), the call of [play_game]
    raises that exception and has done nothing else: no engine was made,
    no call logged and nothing put on the control queue. *)
Theorem failure_before_try_is_silent config game_id s w answer e :
  get_game_stream (session_world s) game_id = (w, answer) →
  fails_before_try (Board := Board) answer = Some e →
  play_game_once config game_id s
  = (Raise e, {| session_queue := session_queue s; session_world := w;
                 session_calls := session_calls s |}).
Proof.
  intros Hget Hfail. unfold play_game_once. rewrite Hget.
  unfold fails_before_try in Hfail.
  destruct answer as [response|e0]; [|by injection Hfail as ->].
  destruct (snapshot response) as [the_game|e0]; [|by injection Hfail as ->].
  destruct (setup_board the_game) as [the_board|e0]; [done|].
  by injection Hfail as ->.
Qed.

(** A call that gets as far as the [try], by what the [try] and the
    [except] clauses give. *)
Lemma play_game_once_in_try config game_id s w response the_game
    (the_board : Board) w1 the_engine r st1 r' st2 :
  get_game_stream (session_world s) game_id = (w, Ok response) →
  snapshot response = Ok the_game →
  setup_board the_game = Ok the_board →
  engine_factory w = (w1, the_engine) →
  try_body config response
    {| game := the_game; board := the_board; engine := the_engine;
       world := w1; calls := session_calls s |} = (r, st1) →
  except_clauses r st1 = (r', st2) →
  play_game_once config game_id s
  = (r', {| session_queue := session_queue s ++ [EvLocalGameDone];
            session_world := world st2;
            session_calls := calls st2 ++ [CallEngineStop] |}).
Proof.
  unfold play_game_once. by intros -> -> -> -> -> ->.
Qed.

(** X22.  A connection error inside the [try] (while the stream is read,
    or from a call to the server) ends the worker normally: the wrapper
    does not call [play_game] again, and exactly one [local_game_done] is
    put on the control queue. *)
Theorem connection_error_in_try_ends_worker retries config game_id s w response
    the_game (the_board : Board) w1 the_engine e st1 :
  get_game_stream (session_world s) game_id = (w, Ok response) →
  snapshot response = Ok the_game →
  setup_board the_game = Ok the_board →
  engine_factory w = (w1, the_engine) →
  try_body config response
    {| game := the_game; board := the_board; engine := the_engine;
       world := w1; calls := session_calls s |} = (Raise e, st1) →
  is_connection_error e = true →
  play_game retries config game_id s
  = (Ok (), {| session_queue := session_queue s ++ [EvLocalGameDone];
               session_world := world st1;
               session_calls := calls st1 ++ [CallEngineStop] |}).
Proof.
  intros Hget Hsnap Hsetup Hengine Htry Hconn.
  unfold play_game. apply backoff_returns.
  eapply play_game_once_in_try; [done..|].
  by destruct e.
Qed.

(** X23.  An [HTTPError] inside the [try] for a game that the server no
    longer lists as ongoing is taken as the end of the game: the worker
    asks for the ongoing games once, ends normally with one
    [local_game_done], and is not called again. *)
Theorem http_error_after_game_over_is_benign retries config game_id s w response
    the_game (the_board : Board) w1 the_engine status st1 w2 ongoing_games :
  get_game_stream (session_world s) game_id = (w, Ok response) →
  snapshot response = Ok the_game →
  setup_board the_game = Ok the_board →
  engine_factory w = (w1, the_engine) →
  try_body config response
    {| game := the_game; board := the_board; engine := the_engine;
       world := w1; calls := session_calls s |} = (Raise (HTTPError status), st1) →
  get_ongoing_games (world st1) = (w2, Ok ongoing_games) →
  model.id (game st1) ∉ ongoing_games →
  play_game retries config game_id s
  = (Ok (), {| session_queue := session_queue s ++ [EvLocalGameDone];
               session_world := w2;
               session_calls := calls st1 ++ [CallGetOngoingGames; CallEngineStop] |}).
Proof.
  intros Hget Hsnap Hsetup Hengine Htry Hongoing Hover.
  unfold play_game. apply backoff_returns.
  erewrite play_game_once_in_try; [|done..|].
  2: { simpl. rewrite Hongoing. by rewrite bool_decide_eq_false_2. }
  simpl. by rewrite <- app_assoc.
Qed.

End WorkerMore.

(** *** Reports and engine stops *)

Section WorkerReports.
Context {Challenge World Board Move Engine : Type}.
Context `{!Rules Board Move, !EngineHandle Engine Board Move}.
Context `{!WorkerTransport World Move, !WorkerEnv World Engine}.

Implicit Types (st : @Worker World Board Move Engine).
Implicit Types (s : @Session Challenge World Board Move).

Lemma engine_stops_snoc (log : list (Call Board Move)) c :
  engine_stops (log ++ [c])
  = (engine_stops log + match c with CallEngineStop => 1 | _ => 0 end)%nat.
Proof.
  unfold engine_stops, count_calls. rewrite List.filter_app, length_app.
  by destruct c.
Qed.

Lemma move_and_submit_no_stop clock st :
  engine_stops (calls (move_and_submit clock st).2) = engine_stops (calls st).
Proof.
  destruct (move_and_submit_calls clock st) as [-> _].
  unfold engine_stops, count_calls. rewrite List.filter_app, length_app.
  simpl. lia.
Qed.

Lemma handle_chunk_no_stop config chunk st :
  engine_stops (calls (handle_chunk config chunk st).2) = engine_stops (calls st).
Proof.
  destruct chunk as [|[line|upd|]|]; simpl; try done.
  - unfold on_ping. destruct (should_abort_now _ _); [|done].
    destruct (abort _ _) as [w r]. simpl. rewrite engine_stops_snoc. lia.
  - unfold on_chat_line. destruct (react _ _ _) as [w r]. simpl.
    rewrite engine_stops_snoc. lia.
  - unfold on_game_state.
    destruct (last (model.moves upd)) as [newest|]; [|done]. simpl.
    destruct (update_board (board st) newest) as [board'|e]; [|done].
    destruct (negb (is_game_over board') && _); [|done].
    match goal with |- context [move_and_submit ?c ?s] =>
      pose proof (move_and_submit_no_stop c s) as Hquiet;
      destruct (move_and_submit c s) as [[u|e] st3] end; done.
Qed.

Lemma handle_chunks_no_stop config (lines : list GameLine) st :
  engine_stops (calls (handle_chunks config lines st).2) = engine_stops (calls st).
Proof.
  revert st. induction lines as [|chunk rest IH]; intros st; simpl; [done|].
  pose proof (handle_chunk_no_stop config chunk st) as Hchunk.
  destruct (handle_chunk config chunk st) as [[[]|e] st1]; simpl in *; [|done].
  by rewrite IH.
Qed.

Lemma try_body_no_stop config response st :
  engine_stops (calls (try_body config response st).2) = engine_stops (calls st).
Proof.
  unfold try_body, play_first_move.
  destruct (is_engine_move _ _).
  - pose proof (move_and_submit_no_stop first_move_clock st) as Hfirst.
    destruct (move_and_submit first_move_clock st) as [[u|e] st1];
      simpl in *; [|done].
    pose proof (handle_chunks_no_stop config (game_lines response) st1) as Hloop.
    destruct (handle_chunks config (game_lines response) st1) as [[[]|e] st2];
      simpl in *; [|congruence].
    destruct (game_end response); simpl; congruence.
  - pose proof (handle_chunks_no_stop config (game_lines response) st) as Hloop.
    destruct (handle_chunks config (game_lines response) st) as [[[]|e] st2];
      simpl in *; [|done].
    by destruct (game_end response).
Qed.

Lemma except_clauses_no_stop r st :
  engine_stops (calls (except_clauses r st).2) = engine_stops (calls st).
Proof.
  destruct r as [[]|e]; [done|]. destruct e; simpl; try done.
  destruct (get_ongoing_games (world st)) as [w [ongoing|e]]; simpl.
  - destruct (negb (negb _)); simpl; rewrite engine_stops_snoc; lia.
  - rewrite engine_stops_snoc. lia.
Qed.

(** One call: no report and no engine stop, or one of each. *)
Lemma play_game_once_pairs config game_id s r s' :
  play_game_once config game_id s = (r, s') →
  ∃ n, (n ≤ 1)%nat
       ∧ session_queue s' = session_queue s ++ replicate n EvLocalGameDone
       ∧ engine_stops (session_calls s') = (engine_stops (session_calls s) + n)%nat.
Proof.
  unfold play_game_once.
  destruct (get_game_stream _ _) as [w [response|e]].
  2: { intros [= <- <-]. exists 0%nat. simpl. rewrite app_nil_r.
       repeat split; done || lia. }
  destruct (snapshot response) as [the_game|e].
  2: { intros [= <- <-]. exists 0%nat. simpl. rewrite app_nil_r.
       repeat split; done || lia. }
  destruct (setup_board the_game) as [the_board|e].
  2: { intros [= <- <-]. exists 0%nat. simpl. rewrite app_nil_r.
       repeat split; done || lia. }
  destruct (engine_factory w) as [w1 the_engine].
  match goal with |- context [try_body ?c ?resp ?st0] =>
    pose proof (try_body_no_stop c resp st0) as Htry;
    destruct (try_body c resp st0) as [r1 st1] end.
  pose proof (except_clauses_no_stop r1 st1) as Hexcept.
  destruct (except_clauses r1 st1) as [r2 st2]. simpl in *.
  intros [= <- <-]. exists 1%nat. simpl.
  rewrite engine_stops_snoc. repeat split; [lia|congruence].
Qed.

(** X24.  Through all the calls the wrapper makes, a worker reports at
    most once per call, and stops an engine exactly as often as it
    reports: with a budget of [retries] the control queue gains between
    none and [retries + 1] events, all of them [local_game_done]. *)
Theorem reports_bounded_and_paired retries config game_id s r s' :
  play_game retries config game_id s = (r, s') →
  ∃ n, (n ≤ retries + 1)%nat
       ∧ session_queue s' = session_queue s ++ replicate n EvLocalGameDone
       ∧ engine_stops (session_calls s') = (engine_stops (session_calls s) + n)%nat.
Proof.
  unfold play_game. revert s.
  induction retries as [|k IH]; intros s; simpl.
  - destruct (play_game_once config game_id s) as [[u|e] s1] eqn:Honce;
      apply play_game_once_pairs in Honce as (n & Hn & Hq & Hstops).
    + intros [= <- <-]. exists n. repeat split; [lia|done..].
    + destruct (is_final e); intros [= <- <-]; exists n;
        (repeat split; [lia|done..]).
  - destruct (play_game_once config game_id s) as [[u|e] s1] eqn:Honce;
      apply play_game_once_pairs in Honce as (n & Hn & Hq & Hstops).
    + intros [= <- <-]. exists n. repeat split; [lia|done..].
    + destruct (is_final e).
      * intros [= <- <-]. exists n. repeat split; [lia|done..].
      * intros Hrest. apply IH in Hrest as (m & Hm & Hq' & Hstops').
        exists (n + m)%nat. repeat split; [lia| |lia].
        by rewrite Hq', Hq, <- app_assoc, replicate_add.
Qed.

End WorkerReports.

(** ** The entry point *)

Section ServeLichessMore.
Context {World : Type} `{!AccountTransport World}.

(** X25.  [serve_lichess] starts the dispatcher for a bot account only.
    An account titled BOT is served as it is, without an upgrade call
    even when [upgrade] is set; any other account is turned away unless
    [upgrade] is set, and then it is served exactly when
    [li.upgrade_to_bot_account()] returns something. *)
Theorem dispatcher_starts_for_bots_only (w w1 : World) the_concurrency
    the_time_controls the_modes verbose upgrade the_url user_profile :
  get_profile w = (w1, Ok user_profile) →
  let config := CONFIG the_url the_concurrency the_time_controls the_modes in
  serve_lichess w the_concurrency the_time_controls the_modes verbose upgrade the_url
  = if bool_decide (title user_profile = Some "BOT"%string)
    then (w1, Ok (Some (user_profile, config)))
    else if upgrade
    then match upgrade_to_bot_account w1 with
         | (w2, Ok (Some _)) => (w2, Ok (Some (user_profile, config)))
         | (w2, Ok None) => (w2, Ok None)
         | (w2, Raise e) => (w2, Raise e)
         end
    else (w1, Ok None).
Proof.
  intros Hprofile config. subst config. unfold serve_lichess, upgrade_account.
  rewrite Hprofile.
  case_bool_decide; destruct upgrade; simpl; try done.
  by destruct (upgrade_to_bot_account w1) as [w2 [[[]|]|e]].
Qed.

End ServeLichessMore.

(** ** More on the dispatcher and the wrapper *)

Section AdmissionMore.
Context {Challenge World : Type}.
Context `{!ChallengeModel Challenge, !DispatcherTransport World}.

Implicit Types (st : @Dispatcher Challenge World) (cfg : ChallengeConfig).

(** X26.  A finished game makes room for one challenge: when the
    counters are at the capacity and the server accepts the head of the
    queue, a [local_game_done] ends with that one challenge accepted,
    one busy process fewer and one queued process more, and the rest of
    the queue waiting. *)
Theorem finished_game_admits_one cfg st chlng rest w' :
  queued_processes st + busy_processes st = max_games cfg →
  challenge_queue st = chlng :: rest →
  accept_challenge (li st) (challenge_id chlng) = (w', Ok ()) →
  dispatch cfg EvLocalGameDone st
  = Running {| busy_processes := busy_processes st - 1;
               queued_processes := queued_processes st + 1;
               challenge_queue := rest; pool := pool st; li := w' |}.
Proof.
  intros Hfull Hqueue Haccept. unfold dispatch, drain. simpl.
  rewrite Hqueue. simpl.
  rewrite bool_decide_eq_true_2 by lia. rewrite Haccept.
  destruct rest as [|next rest]; simpl; [done|].
  by rewrite bool_decide_eq_false_2 by lia.
Qed.

(** X27.  A supported challenge is queued without a call to the server
    and without a change of the counters, and under either policy the
    queue afterwards holds what it held and the new challenge, nothing
    lost and nothing twice. *)
Theorem supported_challenge_is_queued cfg chlng st :
  is_supported chlng cfg = true →
  ∃ st', handle_event cfg (EvChallenge chlng) st = Running st'
         ∧ challenge_queue st' ≡ₚ challenge_queue st ++ [chlng]
         ∧ busy_processes st' = busy_processes st
         ∧ queued_processes st' = queued_processes st
         ∧ pool st' = pool st ∧ li st' = li st.
Proof.
  intros Hsup. simpl. rewrite Hsup. eexists. split; [done|]. simpl.
  split; [|done]. destruct (sort_best cfg); [|done]. apply sort_by_key_perm.
Qed.

End AdmissionMore.

Section RetryByStatus.
Context {Challenge World Board Move Engine : Type}.
Context `{!Rules Board Move, !EngineHandle Engine Board Move}.
Context `{!WorkerTransport World Move, !WorkerEnv World Engine}.

(** X28.  The status of an [HTTPError] decides whether the wrapper tries
    again: when opening the game stream fails with a status below 500
    [play_game] raises at once, whatever budget is left, and above that
    the stream is opened again; either way nothing was reported. *)
Theorem http_status_decides_retry retries config game_id
    (s : @Session Challenge World Board Move) w status :
  get_game_stream (session_world s) game_id = (w, Raise (HTTPError status)) →
  let left_behind := {| session_queue := session_queue s; session_world := w;
                        session_calls := session_calls s |} in
  play_game (Datatypes.S retries) config game_id s
  = if bool_decide (status < 500)
    then (Raise (HTTPError status), left_behind)
    else play_game retries config game_id left_behind.
Proof.
  intros Hget left_behind. subst left_behind. unfold play_game.
  pose proof (play_game_once_silent config game_id s w _ Hget) as Honce.
  case_bool_decide as Hstatus.
  - apply backoff_gives_up; [done|]. simpl. by rewrite bool_decide_eq_true_2.
  - apply (backoff_retries _ retries s (HTTPError status)); [done|].
    simpl. by rewrite bool_decide_eq_false_2.
Qed.

End RetryByStatus.

(** ** Further runs on concrete events and streams *)

(** One game is running and three challenges wait under the best-first
    policy. *)
Lemma every_game_start_launches_witness :
  ["g"%string]
  = started_games [EvGameStart "g"; EvChallenge (offer "a" 5);
                   EvChallenge (offer "b" 9); EvChallenge (offer "c" 5)].
Proof.
  exact (every_game_start_launches (best_first 1)
           [EvGameStart "g"; EvChallenge (offer "a" 5);
            EvChallenge (offer "b" 9); EvChallenge (offer "c" 5)] ()
           {| busy_processes := 1; queued_processes := 0;
              challenge_queue := [offer "b" 9; offer "a" 5; offer "c" 5];
              pool := ["g"%string]; li := () |} eq_refl).
Defined.

(** Two games start and one of them ends. *)
Lemma busy_counts_witness :
  1 = Z.of_nat (length (started_games
                          [EvGameStart "g1"; EvGameStart "g2";
                           (EvLocalGameDone : Event Offer)]))
      - Z.of_nat (finished_games
                    [EvGameStart "g1"; EvGameStart "g2";
                     (EvLocalGameDone : Event Offer)]).
Proof.
  exact (busy_counts_starts_less_reports (best_first 2)
           [EvGameStart "g1"; EvGameStart "g2"; EvLocalGameDone] ()
           {| busy_processes := 1; queued_processes := 0;
              challenge_queue := ([] : list Offer);
              pool := ["g1"%string; "g2"%string]; li := () |} eq_refl).
Defined.

(** With one game running at capacity one, the queue is not empty and the
    counters are at the capacity. *)
Lemma admission_pass_is_maximal_witness :
  [offer "b" 9; offer "a" 5; offer "c" 5] = []
  ∨ max_games (best_first 1) ≤ 0 + 1.
Proof.
  exact (admission_pass_is_maximal (best_first 1)
           [EvGameStart "g"; EvChallenge (offer "a" 5);
            EvChallenge (offer "b" 9); EvChallenge (offer "c" 5)] ()
           {| busy_processes := 1; queued_processes := 0;
              challenge_queue := [offer "b" 9; offer "a" 5; offer "c" 5];
              pool := ["g"%string]; li := () |} (or_introl eq_refl)).
Defined.

(** Three challenges arrive at a free dispatcher of capacity one: the
    first is accepted, the others wait in the order of their arrival. *)
Lemma first_come_first_served_witness :
  ∃ popped,
    supported_challenges (first_come 1)
      [EvChallenge (offer "a" 5); EvChallenge (offer "b" 9);
       EvChallenge (offer "c" 5)]
    = popped ++ [offer "b" 9; offer "c" 5].
Proof.
  exact (first_come_first_served (first_come 1)
           [EvChallenge (offer "a" 5); EvChallenge (offer "b" 9);
            EvChallenge (offer "c" 5)] ()
           {| busy_processes := 0; queued_processes := 1;
              challenge_queue := [offer "b" 9; offer "c" 5];
              pool := []; li := () |} eq_refl eq_refl).
Defined.

(** The head of the best-first queue has the highest score. *)
Lemma best_first_head_is_best_witness :
  Forall (λ other : Offer, score other ≤ score (offer "b" 9))
    [offer "a" 5; offer "c" 5].
Proof.
  exact (best_first_head_is_best (best_first 1)
           [EvGameStart "g"; EvChallenge (offer "a" 5);
            EvChallenge (offer "b" 9); EvChallenge (offer "c" 5)] ()
           {| busy_processes := 1; queued_processes := 0;
              challenge_queue := [offer "b" 9; offer "a" 5; offer "c" 5];
              pool := ["g"%string]; li := () |}
           (offer "b" 9) [offer "a" 5; offer "c" 5]
           eq_refl (or_introl eq_refl) eq_refl).
Defined.

(** After a pass that accepted the one waiting challenge, a second pass
    changes nothing. *)
Lemma admission_pass_idempotent_witness :
  drain (best_first 1)
    {| busy_processes := 0; queued_processes := 1;
       challenge_queue := ([] : list Offer); pool := []; li := () |}
  = Running {| busy_processes := 0; queued_processes := 1;
               challenge_queue := ([] : list Offer); pool := []; li := () |}.
Proof.
  exact (admission_pass_idempotent (best_first 1)
           {| busy_processes := 0; queued_processes := 0;
              challenge_queue := [offer "next" 4]; pool := []; li := () |}
           {| busy_processes := 0; queued_processes := 1;
              challenge_queue := []; pool := []; li := () |} eq_refl).
Defined.

(** A chess960 challenge is declined and does not reach the queue. *)
Lemma queue_holds_supported_only_witness :
  Forall (λ chlng : Offer, is_supported chlng (best_first 1) = true)
    [offer "a" 5].
Proof.
  exact (queue_holds_supported_only (best_first 1)
           [EvGameStart "g";
            EvChallenge {| offer_id := "x"; offer_variant := "chess960";
                           offer_score := 7 |};
            EvChallenge (offer "a" 5)] ()
           {| busy_processes := 1; queued_processes := 0;
              challenge_queue := [offer "a" 5];
              pool := ["g"%string]; li := () |} (or_introl eq_refl)).
Defined.

(** One challenge is accepted and two wait, of three that arrived. *)
Lemma accepted_and_queued_bounded_witness :
  1 + Z.of_nat (length [offer "b" 9; offer "c" 5])
  ≤ Z.of_nat (length (supported_challenges (first_come 1)
                        [EvChallenge (offer "a" 5); EvChallenge (offer "b" 9);
                         EvChallenge (offer "c" 5)])).
Proof.
  exact (accepted_and_queued_bounded (first_come 1)
           [EvChallenge (offer "a" 5); EvChallenge (offer "b" 9);
            EvChallenge (offer "c" 5)] ()
           {| busy_processes := 0; queued_processes := 1;
              challenge_queue := [offer "b" 9; offer "c" 5];
              pool := []; li := () |} eq_refl).
Defined.

(** A stream with a line that does not decode between two lines that do. *)
Lemma garbled_line_stops_forwarding_witness :
  let stream := {| control_lines := [CBlank; CGarbled;
                                     CJson (EvChallenge (offer "a" 5))];
                   control_end := Exhausted |} in
  watch_control_stream_once {| control_queue := []; feed_world := stream |}
  = (Raise ValueError, {| control_queue := [EvPing]; feed_world := stream |}).
Proof.
  intros stream.
  refine (garbled_line_stops_forwarding
            {| control_queue := []; feed_world := stream |} stream stream
            [CBlank] [CJson (EvChallenge (offer "a" 5))] eq_refl eq_refl _).
  intros Hin. apply list_elem_of_singleton in Hin. discriminate.
Defined.

(** A server that refuses the connection twice. *)
Lemma opening_error_is_retried_witness :
  watch_control_stream 3 {| control_queue := []; feed_world := 2%nat |}
  = watch_control_stream 2 {| control_queue := []; feed_world := 1%nat |}
  ∧ watch_control_stream 0 {| control_queue := []; feed_world := 2%nat |}
    = (Raise ConnectionError, {| control_queue := []; feed_world := 1%nat |}).
Proof.
  exact (opening_error_is_retried
           {| control_queue := []; feed_world := 2%nat |} 1%nat
           ConnectionError 2 eq_refl eq_refl).
Defined.

(** The ping that was on the queue stays in front of the one forwarded
    after two refused connections. *)
Lemma consumer_only_appends_witness :
  ([EvPing] : list (Event Offer)) `prefix_of` [EvPing; EvPing].
Proof.
  exact (consumer_only_appends 3
           {| control_queue := [EvPing]; feed_world := 2%nat |}
           {| control_queue := [EvPing; EvPing]; feed_world := 0%nat |}
           (Ok ()) eq_refl).
Defined.


(** An update without moves, as for a game aborted before its first. *)
Lemma broken_update_raises_early_witness :
  let st := {| game := black_game [] 20; board := ([] : list string); engine := ();
               world := ([] : list (Result GameStream)); calls := [] |} in
  let upd := {| model.moves := []; model.numbers := ∅ |} in
  on_game_state default_config upd st
  = (Raise IndexError, set_game (model.set_state upd (game st)) st).
Proof.
  intros st upd.
  exact (broken_update_raises_early default_config upd st IndexError eq_refl).
Defined.

(** White has moved, the engine answers, and the deadline moves from 5 to
    the 20 of the configuration. *)
Lemma deadline_reset_witness :
  let st := {| game := black_game [] 5; board := ([] : list string); engine := ();
               world := ([] : list (Result GameStream)); calls := [] |} in
  let upd := {| model.moves := ["e2e4"%string]; model.numbers := ∅ |} in
  game (on_game_state default_config upd st).2 = black_game ["e2e4"%string] 20.
Proof.
  intros st upd.
  exact (deadline_reset_after_submitted_move default_config upd st "e2e4"
           ["e2e4"%string] eq_refl eq_refl).
Defined.

(** A standard game builds the same board from any initial position. *)
Lemma fen_ignored_witness :
  (setup_board (with_fen "8/8/8/8/8/8/8/8 w - - 0 1"
                  (black_game ["e2e4"%string] 20)) : Result (list string))
  = setup_board (black_game ["e2e4"%string] 20).
Proof.
  apply (fen_ignored_for_other_variants (black_game ["e2e4"%string] 20)).
  - vm_compute. discriminate.
  - vm_compute. discriminate.
Defined.

(** The second recorded move is no UCI move. *)
Lemma setup_board_fails_witness :
  (setup_board (with_moves (["e2e4"%string] ++ "resign"%string :: ["e7e5"%string])
                  (black_game [] 20)) : Result (list string))
  = Raise ValueError.
Proof.
  exact (setup_board_fails_at_first_bad_move (black_game [] 20)
           ["e2e4"%string] ["e7e5"%string] ["e2e4"%string] "resign" ValueError
           eq_refl eq_refl).
Defined.

(** A game stream that ends before its first line. *)
Lemma failure_before_try_witness :
  let empty := {| snapshot := Raise StopIteration; game_lines := [];
                  game_end := Exhausted |} in
  play_game_once default_config "g" (session_with [Ok empty])
  = (Raise StopIteration, session_with []).
Proof.
  intros empty.
  exact (failure_before_try_is_silent (Engine := unit) default_config "g"
           (session_with [Ok empty]) [] (Ok empty) StopIteration
           eq_refl eq_refl).
Defined.

(** The stream of a game breaks after a blank line. *)
Lemma connection_error_in_try_witness :
  let stream := {| snapshot := Ok (black_game [] 20); game_lines := [GBlank];
                   game_end := Broken ConnectionError |} in
  play_game 3 default_config "g" (session_with [Ok stream])
  = (Ok (), {| session_queue := [EvLocalGameDone]; session_world := [];
               session_calls := [CallEngineStop] |}).
Proof.
  intros stream.
  exact (connection_error_in_try_ends_worker 3 default_config "g"
           (session_with [Ok stream]) [] stream (black_game [] 20) [] [] ()
           ConnectionError
           {| game := black_game [] 20; board := []; engine := ();
              world := []; calls := [] |}
           eq_refl eq_refl eq_refl eq_refl eq_refl eq_refl).
Defined.

(** The stream of a finished game ends with HTTP 400, and the server
    lists no ongoing game. *)
Lemma http_error_after_game_over_witness :
  let stream := {| snapshot := Ok (black_game [] 20); game_lines := [];
                   game_end := Broken (HTTPError 400) |} in
  play_game 3 default_config "g" (session_with [Ok stream])
  = (Ok (), {| session_queue := [EvLocalGameDone]; session_world := [];
               session_calls := [CallGetOngoingGames; CallEngineStop] |}).
Proof.
  intros stream.
  exact (http_error_after_game_over_is_benign 3 default_config "g"
           (session_with [Ok stream]) [] stream (black_game [] 20) [] [] ()
           400
           {| game := black_game [] 20; board := []; engine := ();
              world := []; calls := [] |} [] []
           eq_refl eq_refl eq_refl eq_refl eq_refl eq_refl
           (not_elem_of_nil _)).
Defined.

(** The game aborted before its first move: two calls, two reports, two
    engine stops. *)
Lemma reports_bounded_and_paired_witness :
  ∃ n, (n ≤ 3 + 1)%nat
       ∧ [EvLocalGameDone; EvLocalGameDone]
         = ([] : list (Event Offer)) ++ replicate n EvLocalGameDone
       ∧ engine_stops ([CallEngineStop; CallEngineStop]
                       : list (Call (list string) string))
         = (engine_stops ([] : list (Call (list string) string)) + n)%nat.
Proof.
  exact (reports_bounded_and_paired 3 default_config "g"
           (session_with [Ok aborted_stream; Ok finished_stream]) (Ok ())
           {| session_queue := [EvLocalGameDone; EvLocalGameDone];
              session_world := [];
              session_calls := [CallEngineStop; CallEngineStop] |} eq_refl).
Defined.

(** An account without the BOT title, with [upgrade] set and an upgrade
    that succeeds. *)
Lemma dispatcher_starts_for_bots_only_witness :
  serve_lichess visitor 1 ["bullet"%string; "blitz"%string; "rapid"%string]
    ["casual"%string] false true "https://lichess.org/"
  = (visitor, Ok (Some ({| profile_username := "engine"; title := None |},
                        default_config))).
Proof.
  exact (dispatcher_starts_for_bots_only visitor visitor 1
           ["bullet"%string; "blitz"%string; "rapid"%string]
           ["casual"%string] false true "https://lichess.org/"
           {| profile_username := "engine"; title := None |} eq_refl).
Defined.

(** At capacity one with one game running, the end of the game lets the
    best waiting challenge in. *)
Lemma finished_game_admits_one_witness :
  dispatch (best_first 1) EvLocalGameDone
    {| busy_processes := 1; queued_processes := 0;
       challenge_queue := [offer "b" 9; offer "a" 5];
       pool := ["g"%string]; li := () |}
  = Running {| busy_processes := 0; queued_processes := 1;
               challenge_queue := [offer "a" 5];
               pool := ["g"%string]; li := () |}.
Proof.
  exact (finished_game_admits_one (best_first 1)
           {| busy_processes := 1; queued_processes := 0;
              challenge_queue := [offer "b" 9; offer "a" 5];
              pool := ["g"%string]; li := () |}
           (offer "b" 9) [offer "a" 5] () eq_refl eq_refl eq_refl).
Defined.

(** A challenge of score 9 joins a queue that holds one of score 5. *)
Lemma supported_challenge_is_queued_witness :
  let st := {| busy_processes := 1; queued_processes := 0;
               challenge_queue := [offer "a" 5];
               pool := ["g"%string]; li := () |} in
  ∃ st', handle_event (best_first 1) (EvChallenge (offer "b" 9)) st = Running st'
         ∧ challenge_queue st' ≡ₚ [offer "a" 5] ++ [offer "b" 9]
         ∧ busy_processes st' = 1
         ∧ queued_processes st' = 0
         ∧ pool st' = ["g"%string] ∧ li st' = ().
Proof.
  intros st.
  exact (supported_challenge_is_queued (best_first 1) (offer "b" 9) st eq_refl).
Defined.

(** The game is gone when its stream is opened: 404, no second call. *)
Lemma http_status_decides_retry_witness :
  play_game 3 default_config "g" (session_with [])
  = (Raise (HTTPError 404), session_with []).
Proof.
  exact (http_status_decides_retry (Engine := unit) 2 default_config "g"
           (session_with []) [] 404 eq_refl).
Defined.
